(** * Resolution refutation engine (res.py): shallow embedding and properties

    The development follows the Python module function by function:
    [Predicate] and [Clause] with their [__eq__] methods, the unifier
    ([unify], [unify_variable], [unify_predicates]), substitution lookup and
    application ([getFinalForm], [getFinalPredicate]), the resolver
    ([resolve]), the saturation loop ([resolver]), and the input parser
    ([termParser], [parseInput]) with the script that runs them.

    Modelling conventions.
    - Python [str] is [string]; the model covers ASCII text.
    - A substitution is a Python [dict] from names to names, here
      [gmap string string].  Python's [a | b] keeps the right operand's value
      on a shared key, stdpp's union keeps the left one, so [a | b] is
      [b ∪ a].
    - Dictionaries are mutable objects.  The unifier runs in a state monad
      over a store of dictionaries, so that aliasing ([unifications = theta])
      and in-place update ([unifications[k] = v]) are explicit.
    - A raised Python exception is [Raise e]; the sentinel [None] is a value
      ([PyNone]).  Recursion that is not structural takes a [fuel] argument,
      and [OutOfFuel] stands for a call that has not returned within it.
    - The literal objects of a clause carry an identity, which is what [is]
      compares; [resolve] numbers the objects it creates. *)

From Stdlib Require Import String Ascii List Bool Arith Lia Permutation.
From stdpp Require Import gmap strings list fin_maps.
Import ListNotations.

(** ** Strings *)

Module Str.

(** [s.index(c)]: position of the first [c]; [None] where Python raises
    [ValueError]. *)
Fixpoint index (c : ascii) (s : string) : option nat :=
  match s with
  | EmptyString => None
  | String a s' => if Ascii.eqb a c then Some 0 else option_map S (index c s')
  end.

(** [c in s] *)
Definition contains (c : ascii) (s : string) : bool :=
  match index c s with Some _ => true | None => false end.

(** [s[:n]] *)
Fixpoint take (n : nat) (s : string) : string :=
  match n, s with
  | S n', String a s' => String a (take n' s')
  | _, _ => EmptyString
  end.

(** [s[n:]] *)
Fixpoint drop (n : nat) (s : string) : string :=
  match n, s with
  | S n', String _ s' => drop n' s'
  | _, _ => s
  end.

(** [s[i:j]] for non-negative [i] and [j] *)
Definition slice (i j : nat) (s : string) : string := take (j - i) (drop i s).

(** the ASCII characters [str.isspace] accepts *)
Definition is_space (a : ascii) : bool :=
  let n := nat_of_ascii a in
  (((9 <=? n) && (n <=? 13)) || ((28 <=? n) && (n <=? 32)))%nat.

Fixpoint lstrip (s : string) : string :=
  match s with
  | EmptyString => EmptyString
  | String a s' => if is_space a then lstrip s' else s
  end.

Fixpoint rstrip (s : string) : string :=
  match s with
  | EmptyString => EmptyString
  | String a s' =>
      match rstrip s' with
      | EmptyString => if is_space a then EmptyString else String a EmptyString
      | r => String a r
      end
  end.

(** [s.strip()] *)
Definition strip (s : string) : string := rstrip (lstrip s).

(** [s.split(c)] for a one-character separator *)
Fixpoint split (c : ascii) (s : string) : list string :=
  match s with
  | EmptyString => [EmptyString]
  | String a s' =>
      if Ascii.eqb a c then EmptyString :: split c s'
      else match split c s' with
           | h :: t => String a h :: t
           | [] => [String a EmptyString]
           end
  end.

End Str.

(** ** Outcomes of a call *)

Inductive exn : Set :=
| TypeError      (* wrong number of constructor arguments, [dict | None] *)
| ValueError     (* [str.index] on a string without the character *)
| IndexError     (* list index out of range *)
| BadParse       (* [Exception("error bad parse")] of [termParser] *)
| ErrorExit.     (* [print("error"); exit()] of [getFinalPredicate] *)

Inductive outcome (A : Type) : Type :=
| Ok (a : A)
| Raise (e : exn)
| OutOfFuel.
Arguments Ok {A} a.
Arguments Raise {A} e.
Arguments OutOfFuel {A}.

Definition obind {A B} (x : outcome A) (f : A -> outcome B) : outcome B :=
  match x with
  | Ok a => f a
  | Raise e => Raise e
  | OutOfFuel => OutOfFuel
  end.

Declare Scope outcome_scope.
Delimit Scope outcome_scope with out.
Notation "x <- c1 ;; c2" := (obind c1 (fun x => c2))
  (at level 100, c1 at next level, right associativity) : outcome_scope.

(** a [for] loop that builds a list, stopping at the first exception *)
Fixpoint omap {A B} (f : A -> outcome B) (l : list A) : outcome (list B) :=
  match l with
  | [] => Ok []
  | a :: l' => (b <- f a ;; bs <- omap f l' ;; Ok (b :: bs))%out
  end.

(** ** Terms and literals: class Predicate *)

Inductive ptype : Set :=
| FUNCTION_TYPE | VARIABLE_TYPE | PREDICATE_TYPE | CONSTANT_TYPE.

Definition ptype_eqb (a b : ptype) : bool :=
  match a, b with
  | FUNCTION_TYPE, FUNCTION_TYPE
  | VARIABLE_TYPE, VARIABLE_TYPE
  | PREDICATE_TYPE, PREDICATE_TYPE
  | CONSTANT_TYPE, CONSTANT_TYPE => true
  | _, _ => false
  end.

(** The constructor takes its arguments in the order of [__init__]. *)
#[local] Unset Elimination Schemes.
Inductive Predicate : Type :=
  mkPredicate (name : string) (negated : bool) (terms : list Predicate)
              (type : ptype) (nameTag : string).
#[local] Set Elimination Schemes.

Definition name (p : Predicate) : string :=
  match p with mkPredicate n _ _ _ _ => n end.
Definition negated (p : Predicate) : bool :=
  match p with mkPredicate _ b _ _ _ => b end.
Definition terms (p : Predicate) : list Predicate :=
  match p with mkPredicate _ _ ts _ _ => ts end.
Definition type (p : Predicate) : ptype :=
  match p with mkPredicate _ _ _ ty _ => ty end.
Definition nameTag (p : Predicate) : string :=
  match p with mkPredicate _ _ _ _ tag => tag end.

(** [Predicate.__eq__]: the condition of the source, conjunct by conjunct
    (the type comparison occurs twice there). *)
Definition Predicate_eq (self other : Predicate) : bool :=
  String.eqb (name self) (name other)
  && ptype_eqb (type self) (type other)
  && Bool.eqb (negated self) (negated other)
  && ptype_eqb (type self) (type other).

(** [Predicate.__copy__] calls the five-argument constructor with four
    arguments, so every call raises [TypeError]. *)
Definition Predicate_copy (self : Predicate) : outcome Predicate :=
  Raise TypeError.

(** [p.name = n] on a (copied) object *)
Definition set_name (p : Predicate) (n : string) : Predicate :=
  mkPredicate n (negated p) (terms p) (type p) (nameTag p).

(** ** Clauses: class Clause *)

(** A literal object in a clause's list.  [oid] is the identity of the
    Python object ([is] compares it); [pred] is its value. *)
Record PredObj : Type := mkObj { oid : nat; pred : Predicate }.

Record Clause : Type := mkClause { clause_name : string; predicates : list PredObj }.

(** the body of the [for i in range(len(self.predicates) - 1)] loop *)
Definition Clause_eq_at (self other : Clause) (i : nat) : bool :=
  match predicates self !! i, predicates other !! i with
  | Some p, Some q => Predicate_eq (pred p) (pred q)
  | _, _ => true
  end.

(** [Clause.__eq__] *)
Definition Clause_eq (self other : Clause) : bool :=
  if Nat.eqb (length (predicates self)) 0 && Nat.eqb (length (predicates other)) 0
     && String.eqb (clause_name self) (clause_name other)
  then true
  else if String.eqb (clause_name self) (clause_name other) then
    if Nat.eqb (length (predicates self)) (length (predicates other)) then
      forallb (Clause_eq_at self other) (seq 0 (length (predicates self) - 1))
    else false
  else false.

(** ** Substitutions and the store of dictionaries *)

Abbreviation dict := (gmap string string).

(** A reference to a dictionary object, and the store the references
    point into.  A new object gets the next free index. *)
Abbreviation loc := nat.
Abbreviation store := (list dict).

(** the dictionary a reference points to *)
Definition deref (s : store) (l : loc) : dict := default ∅ (s !! l).

(** A computation over the store: it ends with a value, an exception or out
    of fuel, and always with a store. *)
Definition M (A : Type) : Type := store -> outcome A * store.

Definition sret {A} (a : A) : M A := fun s => (Ok a, s).
Definition sraise {A} (e : exn) : M A := fun s => (Raise e, s).
Definition out_of_fuel {A} : M A := fun s => (OutOfFuel, s).
Definition sbind {A B} (m : M A) (f : A -> M B) : M B :=
  fun s =>
    match m s with
    | (Ok a, s') => f a s'
    | (Raise e, s') => (Raise e, s')
    | (OutOfFuel, s') => (OutOfFuel, s')
    end.
(** a call of a function that does not touch the store *)
Definition lift {A} (x : outcome A) : M A := fun s => (x, s).

Declare Scope store_scope.
Delimit Scope store_scope with st.
Notation "x <- c1 ;; c2" := (sbind c1 (fun x => c2))
  (at level 100, c1 at next level, right associativity) : store_scope.

(** [{}] and other dictionary displays: a new object *)
Definition dict_new (d : dict) : M loc := fun s => (Ok (length s), s ++ [d]).
(** reading the object behind a reference *)
Definition dict_get (l : loc) : M dict := fun s => (Ok (deref s l), s).
(** [d.copy()] *)
Definition dict_copy (l : loc) : M loc := (d <- dict_get l ;; dict_new d)%st.
(** [a | b]: a new object, the right operand wins on shared keys *)
Definition dict_or (a b : loc) : M loc :=
  (da <- dict_get a ;; db <- dict_get b ;; dict_new (db ∪ da))%st.
(** [d[k] = v]: the object is updated in place *)
Definition dict_set (l : loc) (k v : string) : M unit :=
  fun s => (Ok tt, <[l := <[k := v]> (deref s l)]> s).
(** [k in d.keys()] *)
Definition has_key (k : string) (d : dict) : bool :=
  match d !! k with Some _ => true | None => false end.

(** What [unify] and its helpers return: [None] or a dictionary. *)
Inductive pyval : Set :=
| PyNone
| PyDict (l : loc).

(** [a | v] where [v] may be [None]: [dict | None] raises [TypeError]. *)
Definition dict_or_val (a : loc) (v : pyval) : M loc :=
  match v with
  | PyDict b => dict_or a b
  | PyNone => sraise TypeError
  end.

(** ** getFinalForm *)

(** The recursion follows the bindings and is not structural: [fuel] is the
    call depth still available. *)
Fixpoint getFinalForm (fuel : nat) (variableName : string) (theta : dict)
  : outcome string :=
  match fuel with
  | 0 => OutOfFuel
  | S fuel' =>
      let translated := variableName in
      match theta !! translated with
      | Some translated' => getFinalForm fuel' translated' theta
      | None => Ok translated
      end
  end.

(** ** The unifier *)

Section unify_body.

(** the recursive calls of [unify], and the call depth left for them *)
Variable unify_rec : Predicate -> Predicate -> loc -> M pyval.
Variable depth : nat.

(** [unify_variable]: [unifications] is the caller's object, not a copy. *)
Definition unify_variable_with (variable term2 : Predicate) (theta : loc)
  : M pyval :=
  (let unifications := theta in
   d <- dict_get unifications ;;
   if has_key (name variable) d then
     linked_var_name <- lift (getFinalForm depth (name variable) d) ;;
     new_var_term <- lift (Predicate_copy variable) ;;
     let new_var_term := set_name new_var_term linked_var_name in
     r <- unify_rec new_var_term term2 unifications ;;
     unifications <- dict_or_val unifications r ;;
     sret (PyDict unifications)
   else if has_key (name term2) d then
     linkedTermName <- lift (getFinalForm depth (name term2) d) ;;
     newTerm <- lift (Predicate_copy term2) ;;
     let newTerm := set_name newTerm linkedTermName in
     r <- unify_rec variable newTerm unifications ;;
     unifications <- dict_or_val unifications r ;;
     sret (PyDict unifications)
   else
     _ <- dict_set unifications (name variable) (name term2) ;;
     sret (PyDict unifications))%st.

(** [for termInner in t2.terms]; [PyNone] is the early [return None]. *)
Fixpoint unify_inner (termOuter : Predicate) (inner : list Predicate)
    (theta : loc) : M pyval :=
  match inner with
  | [] => sret (PyDict theta)
  | termInner :: rest =>
      (uni_res <- unify_rec termInner termOuter theta ;;
       match uni_res with
       | PyNone => sret PyNone
       | PyDict _ =>
           theta <- dict_or_val theta uni_res ;;
           unify_inner termOuter rest theta
       end)%st
  end.

(** [for termOuter in t1.terms] *)
Fixpoint unify_outer (outer inner : list Predicate) (theta : loc) : M pyval :=
  match outer with
  | [] => sret (PyDict theta)
  | termOuter :: rest =>
      (r <- unify_inner termOuter inner theta ;;
       match r with
       | PyNone => sret PyNone
       | PyDict theta => unify_outer rest inner theta
       end)%st
  end.

(** [s[:s.index("(")]]; [str.index] raises [ValueError] without a "(". *)
Definition name_before_paren (s : string) : M string :=
  match Str.index "(" s with
  | Some i => sret (Str.take i s)
  | None => sraise ValueError
  end.

Definition unify_with (t1 t2 : Predicate) (oldTheta : loc) : M pyval :=
  (theta <- dict_copy oldTheta ;;
   if Predicate_eq t1 t2 then sret (PyDict theta)
   else if ptype_eqb (type t1) VARIABLE_TYPE then
     uni_var_res <- unify_variable_with t1 t2 theta ;;
     match uni_var_res with
     | PyDict _ => r <- dict_or_val theta uni_var_res ;; sret (PyDict r)
     | PyNone => sret PyNone
     end
   else if ptype_eqb (type t2) VARIABLE_TYPE then
     uni_var_res <- unify_variable_with t2 t1 theta ;;
     match uni_var_res with
     | PyDict _ => r <- dict_or_val theta uni_var_res ;; sret (PyDict r)
     | PyNone => sret PyNone
     end
   else if ptype_eqb (type t2) FUNCTION_TYPE && ptype_eqb (type t1) FUNCTION_TYPE then
     n1 <- name_before_paren (name t1) ;;
     n2 <- name_before_paren (name t2) ;;
     if negb (String.eqb n1 n2) then sret PyNone
     else unify_outer (terms t1) (terms t2) theta
   else sret PyNone)%st.

End unify_body.

(** [unify]: [fuel] bounds the depth of nested calls. *)
Fixpoint unify (fuel : nat) (t1 t2 : Predicate) (oldTheta : loc) : M pyval :=
  match fuel with
  | 0 => out_of_fuel
  | S fuel' => unify_with (unify fuel') fuel' t1 t2 oldTheta
  end.

Definition unify_variable (fuel : nat) (variable term2 : Predicate) (theta : loc)
  : M pyval :=
  unify_variable_with (unify fuel) fuel variable term2 theta.

(** the [for i in range(len(p1.terms))] loop of [unify_predicates];
    [p2.terms[i]] raises [IndexError] past the end of the list *)
Fixpoint unify_predicates_loop (fuel : nat) (p1 p2 : Predicate)
    (indices : list nat) (unification_theta : loc) : M pyval :=
  match indices with
  | [] => sret (PyDict unification_theta)
  | i :: rest =>
      match terms p1 !! i, terms p2 !! i with
      | Some a, Some b =>
          (tempTheta <- unify fuel a b unification_theta ;;
           match tempTheta with
           | PyNone => sret PyNone
           | PyDict t =>
               unification_theta <- dict_or t unification_theta ;;
               unify_predicates_loop fuel p1 p2 rest unification_theta
           end)%st
      | _, _ => sraise IndexError
      end
  end.

Definition unify_predicates (fuel : nat) (p1 p2 : Predicate) : M pyval :=
  (unification_theta <- dict_new ∅ ;;
   unify_predicates_loop fuel p1 p2 (seq 0 (length (terms p1))) unification_theta)%st.

(** The value of a result: the dictionary behind the returned reference. *)
Definition value_in (s : store) (v : pyval) : option dict :=
  match v with
  | PyNone => None
  | PyDict l => Some (deref s l)
  end.

(** A call seen from a caller that only reads the result: the outcome with
    the returned dictionary read out of the final store. *)
Definition result_of (r : outcome pyval * store) : outcome (option dict) :=
  match r with
  | (Ok v, s) => Ok (value_in s v)
  | (Raise e, _) => Raise e
  | (OutOfFuel, _) => OutOfFuel
  end.

(** [unify(t1, t2, theta)] called with a dictionary holding [theta] *)
Definition unify_on (fuel : nat) (t1 t2 : Predicate) (theta : dict)
  : outcome (option dict) :=
  result_of (unify fuel t1 t2 0 [theta]).

(** [unify_predicates(p1, p2)] *)
Definition unify_predicates_on (fuel : nat) (p1 p2 : Predicate)
  : outcome (option dict) :=
  result_of (unify_predicates fuel p1 p2 []).

(** ** Applying a substitution: termParser and getFinalPredicate *)

Section symbols.

(** the module-level [variables] and [constants] sets filled by
    [parseInput] *)
Variables (variables constants : gset string).

(** [termParser]: the recursive calls are on pieces of the string, so the
    recursion is bounded by [fuel]. *)
Fixpoint termParser_at (fuel : nat) (term_str : string) : outcome Predicate :=
  match fuel with
  | 0 => OutOfFuel
  | S fuel' =>
      let term_str := Str.strip term_str in
      match Str.index "(" term_str with
      | Some first_paren =>
          (* the branch of [if "(" in term_str] *)
          let tag := Str.take first_paren term_str in
          let second_paren := String.length term_str - 1 in
          let func_args :=
            Str.split "," (Str.slice (first_paren + 1) second_paren term_str) in
          (args <- omap (termParser_at fuel') func_args ;;
           Ok (mkPredicate term_str false args FUNCTION_TYPE tag))%out
      | None =>
          if bool_decide (term_str ∈ variables) then
            Ok (mkPredicate term_str false [] VARIABLE_TYPE term_str)
          else if bool_decide (term_str ∈ constants) then
            Ok (mkPredicate term_str false [] CONSTANT_TYPE term_str)
          else Raise BadParse
      end
  end.

(** Every recursive call is on a strictly shorter string: one more than
    the length is fuel enough. *)
Definition termParser (term_str : string) : outcome Predicate :=
  termParser_at (S (String.length term_str)) term_str.

(** the term a variable's final form stands for *)
Definition term_of_final_form (final_form : string) : outcome Predicate :=
  if bool_decide (final_form ∈ constants) then
    Ok (mkPredicate final_form false [] CONSTANT_TYPE final_form)
  else if bool_decide (final_form ∈ variables) then
    Ok (mkPredicate final_form false [] VARIABLE_TYPE final_form)
  else if Str.contains "(" final_form then termParser final_form
  else Raise ErrorExit.

(** [newName = nameTag + "("], then [newName += " " + term.name] for each
    new term, then [newName += " )"] *)
Definition final_name (tag : string) (newTerms : list Predicate) : string :=
  String.append
    (fold_left (fun newName term => String.append newName (String.append " " (name term)))
               newTerms (String.append tag "("))
    " )".

(** [getFinalPredicate]: [depth] is the call depth left for
    [getFinalForm].  A term whose type is none of constant, variable and
    function matches no branch of the loop and is left out. *)
Fixpoint getFinalPredicate (depth : nat) (predicate : Predicate) (theta : dict)
    {struct predicate} : outcome Predicate :=
  match predicate with
  | mkPredicate _ neg ts ty tag =>
      (newTerms <-
         (fix terms_loop (ts : list Predicate) : outcome (list Predicate) :=
            match ts with
            | [] => Ok []
            | term :: rest =>
                match type term with
                | CONSTANT_TYPE =>
                    newTerms <- terms_loop rest ;; Ok (term :: newTerms)
                | VARIABLE_TYPE =>
                    final_form <- getFinalForm depth (name term) theta ;;
                    new_var <- term_of_final_form final_form ;;
                    newTerms <- terms_loop rest ;; Ok (new_var :: newTerms)
                | FUNCTION_TYPE =>
                    finalFunction <- getFinalPredicate depth term theta ;;
                    newTerms <- terms_loop rest ;; Ok (finalFunction :: newTerms)
                | PREDICATE_TYPE => terms_loop rest
                end
            end) ts ;;
       Ok (mkPredicate (final_name tag newTerms) neg newTerms ty tag))%out
  end.

(** ** resolve *)

(** [new_name += "!" if p.negated else "" + p.name + " "] *)
Definition name_piece (p : Predicate) : string :=
  if negated p then "!"%string
  else String.append "" (String.append (name p) " ").

(** the two loops that collect the other literals when both matched
    literals have no arguments: the matched object is skipped by [is] *)
Fixpoint combine_is (matched : PredObj) (ps : list PredObj)
    (output_pred : list PredObj) (new_name : string)
  : list PredObj * string :=
  match ps with
  | [] => (output_pred, new_name)
  | combine :: rest =>
      if Nat.eqb (oid combine) (oid matched) then
        combine_is matched rest output_pred new_name
      else
        combine_is matched rest (output_pred ++ [combine])
                   (String.append new_name (name_piece (pred combine)))
  end.

(** the same two loops after a unification: literals are skipped by
    [.name ==], the others are rebuilt by [getFinalPredicate], each result
    a new object *)
Fixpoint combine_name (depth : nat) (matched : PredObj) (theta : dict)
    (ps : list PredObj) (output_pred : list PredObj) (new_name : string)
    (fresh : nat) : outcome (list PredObj * string * nat) :=
  match ps with
  | [] => Ok (output_pred, new_name, fresh)
  | combine :: rest =>
      if String.eqb (name (pred combine)) (name (pred matched)) then
        combine_name depth matched theta rest output_pred new_name fresh
      else
        (final <- getFinalPredicate depth (pred combine) theta ;;
         combine_name depth matched theta rest
                      (output_pred ++ [mkObj fresh final])
                      (String.append new_name (name_piece (pred combine)))
                      (S fresh))%out
  end.

(** what the loops of [resolve] carry along; [next_oid] is the identity of
    the next object created *)
Record resolve_state : Type := mkRS {
  global_unification : dict;
  out_clause : list Clause;
  next_oid : nat
}.

(** the body of the two nested loops of [resolve] *)
Definition resolve_pair (depth : nat) (clause1 clause2 : Clause)
    (c1_pred c2_pred : PredObj) (st : resolve_state) : outcome resolve_state :=
  if String.eqb (nameTag (pred c2_pred)) (nameTag (pred c1_pred))
     && negb (Bool.eqb (negated (pred c1_pred)) (negated (pred c2_pred)))
  then
    match terms (pred c1_pred), terms (pred c2_pred) with
    | [], [] =>
        let '(output_pred, new_name) :=
          combine_is c1_pred (predicates clause1) [] ""%string in
        let '(output_pred, new_name) :=
          combine_is c2_pred (predicates clause2) output_pred new_name in
        Ok (mkRS (global_unification st)
                 (out_clause st ++ [mkClause new_name output_pred])
                 (next_oid st))
    | _, _ =>
        (pred_uni <- unify_predicates_on depth (pred c1_pred) (pred c2_pred) ;;
         match pred_uni with
         | None => Ok st
         | Some pred_uni =>
             let global_unification := pred_uni ∪ global_unification st in
             r1 <- combine_name depth c1_pred global_unification
                                (predicates clause1) [] ""%string (next_oid st) ;;
             let '(output_pred, new_name, fresh) := r1 in
             r2 <- combine_name depth c2_pred global_unification
                                (predicates clause2) output_pred new_name fresh ;;
             let '(output_pred, new_name, fresh) := r2 in
             Ok (mkRS global_unification
                      (out_clause st ++ [mkClause new_name output_pred])
                      fresh)
         end)%out
    end
  else Ok st.

(** [for c2_pred in clause2.predicates] *)
Fixpoint resolve_inner (depth : nat) (clause1 clause2 : Clause)
    (c1_pred : PredObj) (ps2 : list PredObj) (st : resolve_state)
  : outcome resolve_state :=
  match ps2 with
  | [] => Ok st
  | c2_pred :: rest =>
      (st <- resolve_pair depth clause1 clause2 c1_pred c2_pred st ;;
       resolve_inner depth clause1 clause2 c1_pred rest st)%out
  end.

(** [for c1_pred in clause1.predicates] *)
Fixpoint resolve_outer (depth : nat) (clause1 clause2 : Clause)
    (ps1 : list PredObj) (st : resolve_state) : outcome resolve_state :=
  match ps1 with
  | [] => Ok st
  | c1_pred :: rest =>
      (st <- resolve_inner depth clause1 clause2 c1_pred (predicates clause2) st ;;
       resolve_outer depth clause1 clause2 rest st)%out
  end.

(** [resolve]: the resolvents, then the two parents.  [fresh] is the
    identity of the next new object; the result carries the one after the
    call.  (The set [resolved_predicates] of the source is only written,
    never read.) *)
Definition resolve (depth : nat) (clause1 clause2 : Clause) (fresh : nat)
  : outcome (list Clause * nat) :=
  (st <- resolve_outer depth clause1 clause2 (predicates clause1)
                       (mkRS ∅ [] fresh) ;;
   Ok (out_clause st ++ [clause1; clause2], next_oid st))%out.

End symbols.

(** ** Sets of clauses *)

(** A Python [set] of [Clause] objects finds an element by [__hash__] (the
    hash of the name) and then [__eq__].  [Clause.__eq__] only holds between
    clauses of one name, so membership is decided by [Clause_eq] alone.  The
    model keeps the elements in a list without [Clause_eq]-duplicates; an
    element already present is kept when an equal one is added. *)
Definition cset : Type := list Clause.

(** [x in s] *)
Definition set_mem (x : Clause) (s : cset) : bool :=
  existsb (fun e => Clause_eq e x) s.

(** [s.add(x)] *)
Definition set_add (s : cset) (x : Clause) : cset :=
  if set_mem x s then s else s ++ [x].

(** [set(l)] *)
Definition set_of_list (l : list Clause) : cset := fold_left set_add l [].

(** [a | b] *)
Definition set_union (a b : cset) : cset := fold_left set_add b a.

(** [a.issubset(b)] *)
Definition issubset (a b : cset) : bool := forallb (fun x => set_mem x b) a.

(** [Clause("", []) in resolvents], on a list *)
Definition has_empty_clause (resolvents : list Clause) : bool :=
  existsb (fun item => Clause_eq item (mkClause "" [])) resolvents.

(** ** The saturation loop: resolver *)

(** [print("yes"); exit()] and [print("no"); exit()] *)
Inductive verdict : Set := Yes | No.

(** how the two [for] loops of a round end: with [exit()] after printing
    "no", or with the grown [new_clause] *)
Inductive round_end : Type :=
| Exited
| Collected (new_clause : cset) (fresh : nat).

Section resolver.

Variables (variables constants : gset string).
(** the order in which [list(current_clauses)] lists a set: any order, the
    language does not fix it *)
Variable set_order : cset -> list Clause.
Variable depth : nat.

(** [for c2_index in range(c1_index + 1, len(clause_loop))] *)
Fixpoint round_inner (c1 : Clause) (later : list Clause)
    (new_clause : cset) (fresh : nat) : outcome round_end :=
  match later with
  | [] => Ok (Collected new_clause fresh)
  | c2 :: rest =>
      (r <- resolve variables constants depth c1 c2 fresh ;;
       let '(resolvents, fresh) := r in
       if has_empty_clause resolvents then Ok Exited
       else round_inner c1 rest
              (set_union new_clause (set_of_list resolvents)) fresh)%out
  end.

(** [for c1_index in range(len(clause_loop))] *)
Fixpoint round_outer (clause_loop : list Clause)
    (new_clause : cset) (fresh : nat) : outcome round_end :=
  match clause_loop with
  | [] => Ok (Collected new_clause fresh)
  | c1 :: later =>
      (r <- round_inner c1 later new_clause fresh ;;
       match r with
       | Exited => Ok Exited
       | Collected new_clause fresh => round_outer later new_clause fresh
       end)%out
  end.

(** [while (True)]: [rounds] bounds the number of rounds. *)
Fixpoint resolver_loop (rounds : nat) (current_clauses new_clause : cset)
    (fresh : nat) : outcome verdict :=
  match rounds with
  | 0 => OutOfFuel
  | S rounds' =>
      let clause_loop := set_order current_clauses in
      (r <- round_outer clause_loop new_clause fresh ;;
       match r with
       | Exited => Ok No
       | Collected new_clause fresh =>
           if issubset new_clause current_clauses then Ok Yes
           else resolver_loop rounds' (set_union current_clauses new_clause)
                              new_clause fresh
       end)%out
  end.

(** an identity no literal object of the clauses has *)
Definition fresh_oid (clauses : list Clause) : nat :=
  S (fold_right Nat.max 0 (map oid (concat (map predicates clauses)))).

Definition resolver (rounds : nat) (clauses : list Clause) : outcome verdict :=
  resolver_loop rounds (set_of_list clauses) [] (fresh_oid clauses).

End resolver.

(** ** Terms and clauses as the parser builds them *)

Definition Constant (n : string) : Predicate :=
  mkPredicate n false [] CONSTANT_TYPE n.
Definition Variable_ (n : string) : Predicate :=
  mkPredicate n false [] VARIABLE_TYPE n.
(** a function term: [name] is its whole text, [nameTag] the text before
    the parenthesis *)
Definition Function (text tag : string) (args : list Predicate) : Predicate :=
  mkPredicate text false args FUNCTION_TYPE tag.
(** a literal: [name] and [nameTag] are both the predicate symbol *)
Definition Literal (symbol : string) (neg : bool) (args : list Predicate)
  : Predicate :=
  mkPredicate symbol neg args PREDICATE_TYPE symbol.

(** ** The input parser: parseInput *)

(** [s.split()]: the words between runs of whitespace *)
Fixpoint words (s : string) : list string :=
  match s with
  | EmptyString => []
  | String a s' =>
      if Str.is_space a then words s'
      else
        match s' with
        | EmptyString => [String a EmptyString]
        | String b _ =>
            if Str.is_space b then String a EmptyString :: words s'
            else match words s' with
                 | h :: t => String a h :: t
                 | [] => [String a EmptyString]
                 end
        end
  end.

(** [s[0] == "!"]; [s[0]] raises [IndexError] on the empty string *)
Definition starts_with_bang (s : string) : outcome bool :=
  match s with
  | EmptyString => Raise IndexError
  | String a _ => Ok (Ascii.eqb a "!")
  end.

(** [s.index("(")] *)
Definition index_paren (s : string) : outcome nat :=
  match Str.index "(" s with
  | Some i => Ok i
  | None => Raise ValueError
  end.

(** the body of the loop over the words of a clause line: the literal a word
    stands for, a new object numbered [fresh] *)
Definition parse_literal (variables constants : gset string)
    (predicate : string) (fresh : nat) : outcome PredObj :=
  if negb (Str.contains "(" predicate) then
    (let predicate := String.append predicate "()" in
     bang <- starts_with_bang predicate ;;
     i <- index_paren predicate ;;
     if bang then
       Ok (mkObj fresh (mkPredicate (Str.slice 1 i predicate) true []
                          PREDICATE_TYPE (Str.slice 1 i predicate)))
     else
       Ok (mkObj fresh (mkPredicate (Str.slice 0 i predicate) false []
                          PREDICATE_TYPE (Str.slice 0 i predicate))))%out
  else
    (i <- index_paren predicate ;;
     let terms_of_pred :=
       Str.slice (i + 1) (String.length predicate - 1) predicate in
     let parsedTerms := Str.split "," terms_of_pred in
     terms <- omap (termParser variables constants) parsedTerms ;;
     bang <- starts_with_bang predicate ;;
     if bang then
       Ok (mkObj fresh (mkPredicate (Str.slice 1 i predicate) true terms
                          PREDICATE_TYPE (Str.slice 1 i predicate)))
     else
       Ok (mkObj fresh (mkPredicate (Str.slice 0 i predicate) false terms
                          PREDICATE_TYPE (Str.slice 0 i predicate))))%out.

(** [for predicate in sub_clause] *)
Fixpoint parse_literals (variables constants : gset string)
    (sub_clause : list string) (fresh : nat) : outcome (list PredObj * nat) :=
  match sub_clause with
  | [] => Ok ([], fresh)
  | predicate :: rest =>
      (p <- parse_literal variables constants predicate fresh ;;
       r <- parse_literals variables constants rest (S fresh) ;;
       let '(pred_obj, fresh) := r in
       Ok (p :: pred_obj, fresh))%out
  end.

(** [for clause in clauses] *)
Fixpoint parse_clauses (variables constants : gset string)
    (clauses : list string) (fresh : nat) : outcome (list Clause) :=
  match clauses with
  | [] => Ok []
  | clause :: rest =>
      (r <- parse_literals variables constants (words clause) fresh ;;
       let '(pred_obj, fresh) := r in
       clause_obj <- parse_clauses variables constants rest fresh ;;
       Ok (mkClause clause pred_obj :: clause_obj))%out
  end.

(** the symbols a header line declares: its words after the first *)
Definition declared (line : string) : gset string :=
  list_to_set (map Str.strip (tail (words line))).

(** what [parseInput] returns *)
Record parsed : Type := mkParsed {
  parsed_predicates : gset string;
  parsed_variables : gset string;
  parsed_constants : gset string;
  parsed_functions : gset string;
  parsed_clauses : list Clause
}.

(** [lines[i]] *)
Definition line_at (lines : list string) (i : nat) : outcome string :=
  match lines !! i with
  | Some l => Ok l
  | None => Raise IndexError
  end.

(** [parseInput], from the lines the opened file yields *)
Definition parseInput (file_lines : list string) : outcome parsed :=
  (let lines := map Str.strip file_lines in
   l0 <- line_at lines 0 ;;
   let predicates := declared l0 in
   l1 <- line_at lines 1 ;;
   let variables := declared l1 in
   l2 <- line_at lines 2 ;;
   let constants := declared l2 in
   l3 <- line_at lines 3 ;;
   let functions := declared l3 in
   let clauses := map Str.rstrip (drop 5 lines) in
   clause_obj <- parse_clauses variables constants clauses 0 ;;
   Ok (mkParsed predicates variables constants functions clause_obj))%out.

(** the script: parse the file, then saturate its clauses, with the parsed
    [variables] and [constants] as the module's sets *)
Definition main (set_order : cset -> list Clause) (depth rounds : nat)
    (file_lines : list string) : outcome verdict :=
  (r <- parseInput file_lines ;;
   resolver (parsed_variables r) (parsed_constants r) set_order depth rounds
            (parsed_clauses r))%out.

(** ** Notions used to state the properties *)

(** Induction over terms, with the property available for every argument. *)
Fixpoint Predicate_ind' (P : Predicate -> Prop)
    (step : forall n neg ts ty tag, Forall P ts -> P (mkPredicate n neg ts ty tag))
    (p : Predicate) {struct p} : P p :=
  match p with
  | mkPredicate n neg ts ty tag =>
      step n neg ts ty tag
        ((fix all (ts : list Predicate) : Forall P ts :=
            match ts with
            | [] => @ListDef.Forall_nil _ P
            | t :: ts' => @ListDef.Forall_cons _ P t ts' (Predicate_ind' P step t) (all ts')
            end) ts)
  end.

(** [x] is the name of a variable inside an argument of [t], at any depth:
    [t] properly contains the variable. *)
Fixpoint occurs_below (x : string) (t : Predicate) {struct t} : bool :=
  match t with
  | mkPredicate _ _ ts _ _ =>
      existsb (fun a => (ptype_eqb (type a) VARIABLE_TYPE && String.eqb (name a) x)
                         || occurs_below x a) ts
  end.

(** [follows theta k v r]: [k] bindings of [theta] lead from the name [v] to
    the name [r]. *)
Inductive follows (theta : dict) : nat -> string -> string -> Prop :=
| follows_here v : follows theta 0 v v
| follows_step k v w r :
    theta !! v = Some w -> follows theta k w r -> follows theta (S k) v r.

(** The lookup of [v] in [theta] comes to an end at some call depth, with a
    name or with an exception. *)
Definition lookup_ends (theta : dict) (v : string) : Prop :=
  exists fuel, getFinalForm fuel v theta <> OutOfFuel.

(** No bound value has a further binding. *)
Definition fully_resolved (theta : dict) : Prop :=
  map_Forall (fun _ v => theta !! v = None) theta.

(** No bound value is the text of a function term. *)
Definition binds_no_function (theta : dict) : Prop :=
  map_Forall (fun _ v => Str.contains "(" v = false) theta.

(** Every variable inside [t] is a declared variable, as the parser
    guarantees for the terms it builds. *)
Fixpoint variables_declared (variables : gset string) (t : Predicate)
    {struct t} : Prop :=
  match t with
  | mkPredicate _ _ ts _ _ =>
      (fix all (ts : list Predicate) : Prop :=
         match ts with
         | [] => True
         | a :: ts' =>
             (type a = VARIABLE_TYPE -> name a ∈ variables)
             /\ variables_declared variables a /\ all ts'
         end) ts
  end.

(** The pairs the two loops of the function case of [unify] go through:
    each argument of [t1] with each argument of [t2], the arguments of [t1]
    outermost. *)
Definition argument_pairs (t1 t2 : Predicate) : list (Predicate * Predicate) :=
  list_prod (terms t1) (terms t2).

(** One loop over a list of (outer, inner) pairs, unifying the inner term
    with the outer one under the substitution so far. *)
Fixpoint unify_pairs (unify_rec : Predicate -> Predicate -> loc -> M pyval)
    (pairs : list (Predicate * Predicate)) (theta : loc) : M pyval :=
  match pairs with
  | [] => sret (PyDict theta)
  | (termOuter, termInner) :: rest =>
      (uni_res <- unify_rec termInner termOuter theta ;;
       match uni_res with
       | PyNone => sret PyNone
       | PyDict _ =>
           theta <- dict_or_val theta uni_res ;;
           unify_pairs unify_rec rest theta
       end)%st
  end.

(** The pairs of clauses a round resolves, in the order of the two loops. *)
Fixpoint round_pairs (clause_loop : list Clause) : list (Clause * Clause) :=
  match clause_loop with
  | [] => []
  | c1 :: later => map (pair c1) later ++ round_pairs later
  end.

(** The resolvents a round produces: those of every pair, in order. *)
Fixpoint round_resolvents (variables constants : gset string) (depth : nat)
    (pairs : list (Clause * Clause)) (fresh : nat) : outcome (list Clause * nat) :=
  match pairs with
  | [] => Ok ([], fresh)
  | (c1, c2) :: rest =>
      (r <- resolve variables constants depth c1 c2 fresh ;;
       let '(resolvents, fresh) := r in
       r' <- round_resolvents variables constants depth rest fresh ;;
       let '(more, fresh) := r' in
       Ok (resolvents ++ more, fresh))%out
  end.

(** ** Inputs used in the examples *)

Definition x_ : Predicate := Variable_ "x".
Definition y_ : Predicate := Variable_ "y".
Definition a_ : Predicate := Constant "a".
Definition b_ : Predicate := Constant "b".
(** the declared symbols of the examples *)
Definition vars_xy : gset string := {[ "x"%string; "y"%string ]}.
Definition consts_ab : gset string := {[ "a"%string; "b"%string ]}.

(** literals that agree in predicate name, negation flag and arguments *)
Definition literals_agree (p q : Predicate) : Prop :=
  name p = name q /\ negated p = negated q /\ terms p = terms q.

(** clauses with the same multiset of literals *)
Definition same_literals (c1 c2 : Clause) : Prop :=
  Permutation (map pred (predicates c1)) (map pred (predicates c2)).

(** the clauses of the input lines [P(a) Q(b)] and [Q(b) P(a)] *)
Definition clause_PQ : Clause :=
  mkClause "P(a) Q(b)" [mkObj 0 (Literal "P" false [a_]); mkObj 1 (Literal "Q" false [b_])].
Definition clause_QP : Clause :=
  mkClause "Q(b) P(a)" [mkObj 2 (Literal "Q" false [b_]); mkObj 3 (Literal "P" false [a_])].

(** the function terms f(x), f(a) and f(a,a) as the parser builds them, and
    f(a,b) in the two spellings of its name: the parser's and
    [getFinalPredicate]'s *)
Definition f_x : Predicate := Function "f(x)" "f" [x_].
Definition f_a : Predicate := Function "f(a)" "f" [a_].
Definition f_aa : Predicate := Function "f(a,a)" "f" [a_; a_].
Definition f_ab : Predicate := Function "f(a,b)" "f" [a_; b_].
Definition f_ab' : Predicate := Function "f( a b )" "f" [a_; b_].

(** the literals P(x,x) and !P(a,b) *)
Definition P_xx : Predicate := Literal "P" false [x_; x_].
Definition notP_ab : Predicate := Literal "P" true [a_; b_].

(** [stable n m Q]: run in a store of at least [n] objects, [m] leaves the
    first [n] objects as they are, whatever its outcome, and a value it
    returns satisfies [Q]. *)
Definition stable {A} (n : nat) (m : M A) (Q : A -> Prop) : Prop :=
  forall s, n <= length s ->
    n <= length (m s).2
    /\ take n (m s).2 = take n s
    /\ forall a, (m s).1 = Ok a -> Q a.

(** the loop of [getFinalPredicate] over the terms, as a function of its
    own *)
Section final_terms.

Variables (variables constants : gset string).
Variable depth : nat.
Variable theta : dict.

Fixpoint final_terms (ts : list Predicate) : outcome (list Predicate) :=
  match ts with
  | [] => Ok []
  | term :: rest =>
      match type term with
      | CONSTANT_TYPE =>
          (newTerms <- final_terms rest ;; Ok (term :: newTerms))%out
      | VARIABLE_TYPE =>
          (final_form <- getFinalForm depth (name term) theta ;;
           new_var <- term_of_final_form variables constants final_form ;;
           newTerms <- final_terms rest ;; Ok (new_var :: newTerms))%out
      | FUNCTION_TYPE =>
          (finalFunction <- getFinalPredicate variables constants depth term theta ;;
           newTerms <- final_terms rest ;; Ok (finalFunction :: newTerms))%out
      | PREDICATE_TYPE => final_terms rest
      end
  end.

End final_terms.

(** a substitution with a cycle: x is bound to y and y to x *)
Definition theta_cycle : dict := {[ "x"%string := "y"%string; "y"%string := "x"%string ]}.

(** the substitution binding x to the text of f(y), and the literal P(x) *)
Definition theta_x_fy : dict := {[ "x"%string := "f(y)"%string ]}.
Definition P_x : Predicate := Literal "P" false [x_].

(** the clauses of the input lines [P(x) P(b)] and [!P(a)] *)
Definition clause_Px_Pb : Clause :=
  mkClause "P(x) P(b)" [mkObj 0 (Literal "P" false [x_]); mkObj 1 (Literal "P" false [b_])].
Definition clause_notPa : Clause :=
  mkClause "!P(a)" [mkObj 2 (Literal "P" true [a_])].

(** the clauses of the input lines [A A] and [!A]: literals without
    arguments *)
Definition clause_A_A : Clause :=
  mkClause "A A" [mkObj 0 (Literal "A" false []); mkObj 1 (Literal "A" false [])].
Definition clause_notA : Clause :=
  mkClause "!A" [mkObj 2 (Literal "A" true [])].

(** The two loops of a round as one loop over the pairs of clauses. *)
Fixpoint round_flat (variables constants : gset string) (depth : nat)
    (pairs : list (Clause * Clause)) (new_clause : cset) (fresh : nat)
  : outcome round_end :=
  match pairs with
  | [] => Ok (Collected new_clause fresh)
  | (c1, c2) :: rest =>
      (r <- resolve variables constants depth c1 c2 fresh ;;
       let '(resolvents, fresh) := r in
       if has_empty_clause resolvents then Ok Exited
       else round_flat variables constants depth rest
              (set_union new_clause (set_of_list resolvents)) fresh)%out
  end.

(** the clauses of the input lines [P(x)] and [!P(a)], and of [Q(a)] *)
Definition clause_Px : Clause := mkClause "P(x)" [mkObj 0 (Literal "P" false [x_])].
Definition clause_notPa' : Clause := mkClause "!P(a)" [mkObj 1 (Literal "P" true [a_])].
Definition clause_Qa : Clause := mkClause "Q(a)" [mkObj 2 (Literal "Q" false [a_])].

(** the clauses of the input lines [P(x) Q(y) R(x)] and [!P(y) !Q(x)] *)
Definition clause_PQR : Clause :=
  mkClause "P(x) Q(y) R(x)"
    [mkObj 0 (Literal "P" false [x_]); mkObj 1 (Literal "Q" false [y_]);
     mkObj 2 (Literal "R" false [x_])].
Definition clause_notP_notQ : Clause :=
  mkClause "!P(y) !Q(x)"
    [mkObj 3 (Literal "P" true [y_]); mkObj 4 (Literal "Q" true [x_])].

(** a result of [unify] that is a dictionary is an object numbered [n] or
    later: one created after the store had [n] objects *)
Definition new_dict (n : nat) (v : pyval) : Prop :=
  match v with
  | PyDict l => n <= l
  | PyNone => True
  end.

(** the literal or term [p] with the argument list [ts] *)
Definition with_terms (p : Predicate) (ts : list Predicate) : Predicate :=
  mkPredicate (name p) (negated p) ts (type p) (nameTag p).

(** the literals P(a,b) and !P(a) *)
Definition P_ab : Predicate := Literal "P" false [a_; b_].
Definition notP_a : Predicate := Literal "P" true [a_].

(** [replace_variable x a t]: the term [t] with the constant [a] written
    for the variable [x] in its arguments, and in the arguments of its
    function terms *)
Fixpoint replace_variable (x a : string) (t : Predicate) {struct t} : Predicate :=
  match t with
  | mkPredicate n neg ts ty tag =>
      mkPredicate n neg
        (map (fun arg =>
                match type arg with
                | VARIABLE_TYPE =>
                    if String.eqb (name arg) x then Constant a else arg
                | FUNCTION_TYPE => replace_variable x a arg
                | _ => arg
                end) ts)
        ty tag
  end.

(** ** __hash__ *)

Section hash.

(** the hash of a string: [str.__hash__], whatever values it takes *)
Variable str_hash : string -> Z.

(** [Predicate.__hash__] *)
Definition Predicate_hash (self : Predicate) : Z := str_hash (name self).

(** [Clause.__hash__] *)
Definition Clause_hash (self : Clause) : Z := str_hash (clause_name self).

End hash.

(** No variable among the arguments of [t], or of its function terms at any
    depth, has a binding in [theta]. *)
Fixpoint no_bound_variable (theta : dict) (t : Predicate) {struct t} : Prop :=
  match t with
  | mkPredicate _ _ ts _ _ =>
      (fix all (ts : list Predicate) : Prop :=
         match ts with
         | [] => True
         | a :: ts' =>
             (type a = VARIABLE_TYPE -> theta !! name a = None)
             /\ (type a = FUNCTION_TYPE -> no_bound_variable theta a)
             /\ all ts'
         end) ts
  end.

(** the test of [resolve] on a pair of literals: same [nameTag], different
    negation *)
Definition complementary (c1_pred c2_pred : Predicate) : bool :=
  String.eqb (nameTag c2_pred) (nameTag c1_pred)
  && negb (Bool.eqb (negated c1_pred) (negated c2_pred)).

(** the literal objects of a list other than the object [matched] *)
Definition others (matched : PredObj) (ps : list PredObj) : list PredObj :=
  filter (fun c => Nat.eqb (oid c) (oid matched) = false) ps.

(** the name [resolve] gives a resolvent with the literals [kept], continuing
    the text [start] *)
Definition resolvent_name (start : string) (kept : list PredObj) : string :=
  fold_left (fun new_name c => String.append new_name (name_piece (pred c)))
            kept start.

(** [parsed_term variables constants t]: [t] has the shape of a term built
    by [termParser]: a declared variable, a declared constant that is no
    declared variable, or a function term whose [nameTag] is the text of its
    name before the first "(" and whose arguments, at least one, have that
    shape too. *)
Fixpoint parsed_term (variables constants : gset string) (t : Predicate)
    {struct t} : Prop :=
  match t with
  | mkPredicate n neg ts ty tag =>
      neg = false
      /\ match ty with
         | VARIABLE_TYPE =>
             n ∈ variables /\ Str.index "(" n = None /\ ts = [] /\ tag = n
         | CONSTANT_TYPE =>
             (n ∈ constants) /\ (n ∉ variables) /\ Str.index "(" n = None
             /\ ts = [] /\ tag = n
         | FUNCTION_TYPE =>
             (exists i, Str.index "(" n = Some i /\ tag = Str.take i n)
             /\ ts <> []
             /\ (fix all (ts : list Predicate) : Prop :=
                   match ts with
                   | [] => True
                   | a :: ts' => parsed_term variables constants a /\ all ts'
                   end) ts
         | PREDICATE_TYPE => False
         end
  end.

(** a word starts with "!" *)
Definition leading_bang (s : string) : bool :=
  match s with
  | EmptyString => false
  | String a _ => Ascii.eqb a "!"
  end.

(** what the engine uses of a parse: the variables, the constants and the
    clauses *)
Definition used_of_parse (r : outcome parsed)
  : outcome (gset string * gset string * list Clause) :=
  (p <- r ;; Ok (parsed_variables p, parsed_constants p, parsed_clauses p))%out.

(** the lines of a small input file *)
Definition file_PQ : list string :=
  ["Predicates: P Q"; "Variables: x y"; "Constants: a b"; "Functions: f"; "";
   "P(x) Q(f(x),a)"; "!P(a) Q"]%string.

(** [parsed_literal variables constants p]: [p] has the shape of a literal
    built by [parseInput]: its type is predicate, its [name] and [nameTag]
    are the same text, which holds no "(", and its arguments are terms as
    [termParser] builds them. *)
Definition parsed_literal (variables constants : gset string) (p : Predicate)
  : Prop :=
  type p = PREDICATE_TYPE
  /\ nameTag p = name p
  /\ Str.index "(" (name p) = None
  /\ Forall (parsed_term variables constants) (terms p).

(** ** Notions used to state a round of the engine *)

(** the empty clause as the engine's test [Clause("", []) in resolvents]
    has it: no literals, and the empty name *)
Definition is_empty_clause (c : Clause) : Prop :=
  clause_name c = ""%string /\ predicates c = [].

(** clauses of one name whose literals are equal as Predicates, position by
    position *)
Definition same_by_position (e r : Clause) : Prop :=
  clause_name e = clause_name r
  /\ Forall2 (fun p q => Predicate_eq (pred p) (pred q) = true)
             (predicates e) (predicates r).

(** clauses of one name and one number of literals, whose literals at the
    positions before the last are equal as Predicates *)
Definition alike_before_last (e r : Clause) : Prop :=
  clause_name e = clause_name r
  /\ length (predicates e) = length (predicates r)
  /\ forall i p q, S i < length (predicates e) ->
       predicates e !! i = Some p -> predicates r !! i = Some q ->
       Predicate_eq (pred p) (pred q) = true.

(** a clause that is among the clauses of a set by its literals *)
Definition known_by_literals (r : Clause) (s : cset) : Prop :=
  exists e, In e s /\ same_literals e r.

(** the clauses of the input lines [A B C], [!A] and [C B], and the
    resolvent of the first two as [resolve] names it *)
Definition clause_A_B_C : Clause :=
  mkClause "A B C" [mkObj 0 (Literal "A" false []); mkObj 1 (Literal "B" false []);
                    mkObj 2 (Literal "C" false [])].
Definition clause_notA_3 : Clause :=
  mkClause "!A" [mkObj 3 (Literal "A" true [])].
Definition clause_C_B : Clause :=
  mkClause "C B" [mkObj 4 (Literal "C" false []); mkObj 5 (Literal "B" false [])].
Definition resolvent_B_C : Clause :=
  mkClause "B C " [mkObj 1 (Literal "B" false []); mkObj 2 (Literal "C" false [])].

(** the clauses of the input lines [!B A] and [!X B] (with [!A]), their
    resolvents [!B] and [A !X] as the first round names them, and the
    resolvent [!X] of the second round *)
Definition clause_notB_A : Clause :=
  mkClause "!B A" [mkObj 0 (Literal "B" true []); mkObj 1 (Literal "A" false [])].
Definition clause_notX_B : Clause :=
  mkClause "!X B" [mkObj 3 (Literal "X" true []); mkObj 4 (Literal "B" false [])].
Definition resolvent_notB : Clause :=
  mkClause "!" [mkObj 0 (Literal "B" true [])].
Definition resolvent_A_notX : Clause :=
  mkClause "A !" [mkObj 1 (Literal "A" false []); mkObj 3 (Literal "X" true [])].
Definition resolvent_notX : Clause :=
  mkClause "!" [mkObj 3 (Literal "X" true [])].

(** the clauses of the input lines [Q(x,x)] and [!Q(a,b)] *)
Definition clause_Qxx : Clause :=
  mkClause "Q(x,x)" [mkObj 2 (Literal "Q" false [x_; x_])].
Definition clause_notQab : Clause :=
  mkClause "!Q(a,b)" [mkObj 3 (Literal "Q" true [a_; b_])].

(** * Properties *)

(** ** Equality of literals and of clauses *)

Lemma ptype_eqb_eq (a b : ptype) : ptype_eqb a b = true <-> a = b.
Proof. destruct a, b; simpl; split; congruence. Qed.

Lemma ptype_eqb_refl (a : ptype) : ptype_eqb a a = true.
Proof. by destruct a. Qed.

(** What [Predicate.__eq__] computes. *)
Lemma Predicate_eq_true (p q : Predicate) :
  Predicate_eq p q = true
  <-> name p = name q /\ type p = type q /\ negated p = negated q.
Proof.
  unfold Predicate_eq.
  rewrite !andb_true_iff, String.eqb_eq, ptype_eqb_eq, Bool.eqb_true_iff.
  tauto.
Qed.

(** C5, as the code has it: two Predicates are equal under [==] exactly when
    their name strings, their type tags and their negation flags agree; the
    argument lists and the nameTag take no part in the comparison. *)
Theorem Predicate_eq_spec (p q : Predicate) :
  Predicate_eq p q = true
  <-> name p = name q /\ type p = type q /\ negated p = negated q.
Proof.
  unfold Predicate_eq. split.
  - intros H. repeat (apply andb_prop in H as [H ?]).
    repeat split.
    + by apply String.eqb_eq.
    + by apply ptype_eqb_eq.
    + by apply Bool.eqb_prop.
  - intros (Hn & Ht & Hneg). rewrite Hn, Ht, Hneg.
    by rewrite String.eqb_refl, ptype_eqb_refl, Bool.eqb_reflx.
Qed.

(** C5 as stated fails: the literals P(a) and P(b) have different arguments
    and are equal under [==]. *)
Lemma Predicate_eq_ignores_arguments :
  ~ (Predicate_eq (Literal "P" false [a_]) (Literal "P" false [b_]) = true
     <-> literals_agree (Literal "P" false [a_]) (Literal "P" false [b_])).
Proof.
  intros [H _]. destruct (H eq_refl) as (_ & _ & Hterms). discriminate Hterms.
Qed.

Lemma Predicate_eq_refl (p : Predicate) : Predicate_eq p p = true.
Proof. by apply Predicate_eq_true. Qed.

Lemma Predicate_eq_sym (p q : Predicate) : Predicate_eq p q = Predicate_eq q p.
Proof.
  apply eq_true_iff_eq. rewrite !Predicate_eq_true. intuition congruence.
Qed.

Lemma Predicate_eq_trans (p q r : Predicate) :
  Predicate_eq p q = true -> Predicate_eq q r = true -> Predicate_eq p r = true.
Proof. rewrite !Predicate_eq_true. intuition congruence. Qed.

(** What [Clause.__eq__] computes, loop included. *)
Lemma Clause_eq_true (c1 c2 : Clause) :
  Clause_eq c1 c2 = true
  <-> clause_name c1 = clause_name c2
      /\ length (predicates c1) = length (predicates c2)
      /\ forall i, i < length (predicates c1) - 1 -> Clause_eq_at c1 c2 i = true.
Proof.
  unfold Clause_eq.
  destruct (String.eqb_spec (clause_name c1) (clause_name c2)) as [Hn|Hn];
    rewrite ?andb_false_r, ?andb_true_r; [|intuition congruence].
  destruct (Nat.eqb_spec (length (predicates c1)) (length (predicates c2))) as [Hl|Hl].
  - assert (Hloop : forallb (Clause_eq_at c1 c2) (seq 0 (length (predicates c1) - 1)) = true
                    <-> forall i, i < length (predicates c1) - 1 -> Clause_eq_at c1 c2 i = true).
    { rewrite forallb_forall. split; intros H i Hi; apply H.
      - apply in_seq. lia.
      - apply in_seq in Hi. lia. }
    destruct (length (predicates c1) =? 0)%nat eqn:H1;
      destruct (length (predicates c2) =? 0)%nat eqn:H2; simpl;
      rewrite ?Hloop; try tauto.
    apply Nat.eqb_eq in H1. split; [|done].
    intros _. repeat split; try done. intros i Hi. lia.
  - destruct (length (predicates c1) =? 0)%nat eqn:H1;
      destruct (length (predicates c2) =? 0)%nat eqn:H2; simpl;
      try (intuition congruence).
    apply Nat.eqb_eq in H1, H2. lia.
Qed.

(** C6, as the code has it by design: clauses are the same element only if
    their name strings are equal, they have as many literals, and the
    literals at each position before the last are equal as Predicates,
    position by position; and they are the same element whenever the names
    are equal and the literal lists are equal position by position. *)
Theorem Clause_eq_by_name_and_position (c1 c2 : Clause) :
  (Clause_eq c1 c2 = true ->
     clause_name c1 = clause_name c2
     /\ length (predicates c1) = length (predicates c2)
     /\ forall i p q, S i < length (predicates c1) ->
          predicates c1 !! i = Some p -> predicates c2 !! i = Some q ->
          Predicate_eq (pred p) (pred q) = true)
  /\ (clause_name c1 = clause_name c2 ->
      Forall2 (fun p q => Predicate_eq (pred p) (pred q) = true)
              (predicates c1) (predicates c2) ->
      Clause_eq c1 c2 = true).
Proof.
  split.
  - intros (Hn & Hl & Hat)%Clause_eq_true. repeat split; try done.
    intros i p q Hi Hp Hq. specialize (Hat i ltac:(lia)).
    unfold Clause_eq_at in Hat. by rewrite Hp, Hq in Hat.
  - intros Hn Hall. apply Clause_eq_true. repeat split; try done.
    + by eapply Forall2_length.
    + intros i Hi. unfold Clause_eq_at.
      destruct (predicates c1 !! i) as [p|] eqn:Hp; [|done].
      destruct (predicates c2 !! i) as [q|] eqn:Hq; [|done].
      exact (Forall2_lookup_lr _ _ _ _ _ _ Hall Hp Hq).
Qed.

(** C6 as stated fails: the clauses of the lines [P(a) Q(b)] and
    [Q(b) P(a)] have the same literals and are different elements. *)
Lemma Clause_eq_depends_on_name :
  ~ (Clause_eq clause_PQ clause_QP = true <-> same_literals clause_PQ clause_QP).
Proof.
  intros [_ H]. enough (Clause_eq clause_PQ clause_QP = true) by done.
  apply H. unfold same_literals. simpl. apply perm_swap.
Qed.

(** The clauses of a name with equal literal lists are the same element. *)
Lemma Clause_eq_by_name_and_position_witness :
  Clause_eq clause_PQ (mkClause "P(a) Q(b)" [mkObj 7 (Literal "P" false [b_]);
                                            mkObj 8 (Literal "Q" false [b_])]) = true.
Proof.
  apply (proj2 (Clause_eq_by_name_and_position clause_PQ _)).
  - reflexivity.
  - repeat constructor.
Defined.

(** ** The unifier *)

(** C2 as stated fails: unifying x with f(x) returns the substitution
    binding x to the text of f(x), although f(x) properly contains x. *)
Lemma unify_binds_variable_inside_term :
  occurs_below "x" f_x = true
  /\ unify_on 2 x_ f_x ∅ = Ok (Some {[ "x"%string := "f(x)"%string ]})
  /\ unify_on 2 x_ f_x ∅ <> Ok None.
Proof. repeat split; try (vm_compute; reflexivity). vm_compute. discriminate. Qed.

(** C2, as the code has it: a variable with no binding, unified with a term
    that is not equal to it and whose name has no binding either, is bound
    to the name of that term; nothing is checked about the variable
    occurring in the term. *)
Theorem unify_unbound_variable (fuel : nat) (x t : Predicate) (theta : dict) :
  type x = VARIABLE_TYPE ->
  Predicate_eq x t = false ->
  theta !! name x = None ->
  theta !! name t = None ->
  unify_on (S fuel) x t theta = Ok (Some (<[name x := name t]> theta)).
Proof.
  intros Hty Hne Hx Ht.
  unfold unify_on, unify; fold unify.
  unfold unify_with, unify_variable_with, sbind, dict_copy, dict_get, dict_new,
    dict_set, dict_or_val, dict_or, sret, sbind, has_key, deref; simpl.
  rewrite Hne, Hty. simpl. rewrite Hx, Ht. simpl.
  f_equal. f_equal. apply map_union_idemp.
Qed.

Lemma unify_unbound_variable_witness :
  unify_on 2 x_ f_x ∅ = Ok (Some (<["x"%string := "f(x)"%string]> ∅)).
Proof. apply (unify_unbound_variable 1 x_ f_x ∅); reflexivity. Defined.

(** The inner loop followed by the rest of the pairs is one loop over the
    pairs of the current outer term and then the rest. *)
Lemma unify_inner_pairs (u : Predicate -> Predicate -> loc -> M pyval)
    (termOuter : Predicate) (rest : list (Predicate * Predicate))
    (inner : list Predicate) (theta : loc) (s : store) :
  sbind (unify_inner u termOuter inner theta)
        (fun r => match r with
                  | PyNone => sret PyNone
                  | PyDict theta' => unify_pairs u rest theta'
                  end) s
  = unify_pairs u (map (pair termOuter) inner ++ rest) theta s.
Proof.
  revert theta s. induction inner as [|termInner inner IH]; intros theta s.
  - reflexivity.
  - simpl. unfold sbind in *.
    destruct (u termInner termOuter theta s) as [[[|r]| |] s1]; try reflexivity.
    destruct (dict_or_val theta (PyDict r) s1) as [[theta'| |] s2]; try reflexivity.
    apply IH.
Qed.

(** The two nested loops go through [list_prod] of the argument lists. *)
Lemma unify_outer_pairs (u : Predicate -> Predicate -> loc -> M pyval)
    (outer inner : list Predicate) (theta : loc) (s : store) :
  unify_outer u outer inner theta s = unify_pairs u (list_prod outer inner) theta s.
Proof.
  revert theta s. induction outer as [|termOuter outer IH]; intros theta s.
  - reflexivity.
  - simpl. rewrite <- unify_inner_pairs. unfold sbind.
    destruct (unify_inner u termOuter inner theta s) as [[[|theta']| |] s1];
      try reflexivity.
    apply IH.
Qed.

(** C1 as stated fails.  f(a) and f(a,a) have different arities and unify;
    f(a,b) unified with the same term under the name [getFinalPredicate]
    gives it fails, because a is also unified with b. *)
Lemma unify_functions_all_pairs_counterexample :
  (unify_on 3 f_a f_aa ∅ = Ok (Some ∅)
   /\ length (terms f_a) <> length (terms f_aa))
  /\ (terms f_ab = terms f_ab' /\ unify_on 3 f_ab f_ab' ∅ = Ok None).
Proof. repeat split; try (vm_compute; reflexivity). simpl. lia. Qed.

(** C1, as the code has it: for two function terms that are not equal under
    [==], unify compares the texts of the two names before their first "("
    and nothing else (no arity); it then unifies every argument of the
    second term with every argument of the first, the loop over the first
    term's arguments outermost, threading the substitution through the
    pairs; and it succeeds only if the two texts are identical. *)
Theorem unify_functions_all_pairs (fuel : nat) (t1 t2 : Predicate) (oldTheta : loc) :
  type t1 = FUNCTION_TYPE ->
  type t2 = FUNCTION_TYPE ->
  Predicate_eq t1 t2 = false ->
  (forall s,
     unify (S fuel) t1 t2 oldTheta s
     = (theta <- dict_copy oldTheta ;;
        n1 <- name_before_paren (name t1) ;;
        n2 <- name_before_paren (name t2) ;;
        if negb (String.eqb n1 n2) then sret PyNone
        else unify_pairs (unify fuel) (argument_pairs t1 t2) theta)%st s)
  /\ (forall s l s',
        unify (S fuel) t1 t2 oldTheta s = (Ok (PyDict l), s') ->
        exists i1 i2,
          Str.index "(" (name t1) = Some i1
          /\ Str.index "(" (name t2) = Some i2
          /\ Str.take i1 (name t1) = Str.take i2 (name t2)).
Proof.
  intros H1 H2 Hne.
  assert (Heq : forall s,
     unify (S fuel) t1 t2 oldTheta s
     = (theta <- dict_copy oldTheta ;;
        n1 <- name_before_paren (name t1) ;;
        n2 <- name_before_paren (name t2) ;;
        if negb (String.eqb n1 n2) then sret PyNone
        else unify_pairs (unify fuel) (argument_pairs t1 t2) theta)%st s).
  { intros s. simpl. unfold unify_with. rewrite Hne, H1, H2. simpl.
    unfold sbind. destruct (dict_copy oldTheta s) as [[theta| |] s1]; try reflexivity.
    destruct (name_before_paren (name t1) s1) as [[n1| |] s2]; try reflexivity.
    destruct (name_before_paren (name t2) s2) as [[n2| |] s3]; try reflexivity.
    destruct (negb (String.eqb n1 n2)); [reflexivity|].
    apply unify_outer_pairs. }
  split; [exact Heq|].
  intros s l s' Hrun. rewrite Heq in Hrun. unfold sbind in Hrun.
  destruct (dict_copy oldTheta s) as [[theta| |] s1]; try discriminate.
  unfold name_before_paren in Hrun.
  destruct (Str.index "(" (name t1)) as [i1|]; [|discriminate].
  destruct (Str.index "(" (name t2)) as [i2|]; [|discriminate].
  simpl in Hrun.
  destruct (String.eqb_spec (Str.take i1 (name t1)) (Str.take i2 (name t2)));
    simpl in Hrun; [|discriminate].
  eauto.
Qed.

Lemma unify_functions_all_pairs_witness :
  exists i1 i2,
    Str.index "(" (name f_a) = Some i1
    /\ Str.index "(" (name f_aa) = Some i2
    /\ Str.take i1 (name f_a) = Str.take i2 (name f_aa).
Proof.
  refine (proj2 (unify_functions_all_pairs 2 f_a f_aa 0 _ _ _) [∅] 5 _ _);
    vm_compute; reflexivity.
Defined.

(** C8: with a variable that already has a binding, neither a substitution
    nor [None] comes back.  Unifying the literals P(x,x) and !P(a,b) binds
    x to a on the first pair of arguments; on the second pair
    [unify_variable] copies the variable and [__copy__] raises. *)
Theorem unify_predicates_raises_on_bound_variable (fuel : nat) :
  unify_predicates_on (S (S (S fuel))) P_xx notP_ab = Raise TypeError.
Proof. vm_compute. reflexivity. Qed.

(** The same for every call of [unify] on a variable that has a binding:
    it does not return. *)
Lemma unify_bound_variable_no_result (fuel : nat) (x t : Predicate)
    (theta : dict) (v : string) :
  type x = VARIABLE_TYPE ->
  Predicate_eq x t = false ->
  theta !! name x = Some v ->
  unify_on fuel x t theta = Raise TypeError
  \/ unify_on fuel x t theta = OutOfFuel.
Proof.
  intros Hty Hne Hx. destruct fuel as [|fuel]; [by right|].
  unfold unify_on, unify; fold unify.
  unfold unify_with, unify_variable_with, sbind, dict_copy, dict_get, dict_new,
    sret, sbind, has_key, deref, lift; simpl.
  rewrite Hne, Hty. simpl. rewrite Hx.
  destruct (getFinalForm fuel (name x) theta) as [r|e|] eqn:Hf; simpl; auto.
  exfalso. revert Hf. clear. generalize (name x).
  induction fuel as [|fuel IH]; intros w; simpl; [done|].
  destruct (theta !! w); [apply IH|done].
Qed.

(** ** unify and the caller's dictionary *)

Lemma stable_ret {A} n (a : A) (Q : A -> Prop) : Q a -> stable n (sret a) Q.
Proof. intros HQ s Hs. simpl. repeat split; [done|]. by intros ? [= <-]. Qed.

Lemma stable_raise {A} n e (Q : A -> Prop) : stable n (sraise e) Q.
Proof. intros s Hs. simpl. repeat split; done. Qed.

Lemma stable_out_of_fuel {A} n (Q : A -> Prop) : stable n out_of_fuel Q.
Proof. intros s Hs. simpl. repeat split; done. Qed.

Lemma stable_lift {A} n (x : outcome A) : stable n (lift x) (fun _ => True).
Proof. intros s Hs. simpl. repeat split; done. Qed.

Lemma stable_weaken {A} n (m : M A) (Q R : A -> Prop) :
  stable n m Q -> (forall a, Q a -> R a) -> stable n m R.
Proof.
  intros Hm HQR s Hs. destruct (Hm s Hs) as (? & ? & ?). repeat split; auto.
Qed.

Lemma stable_bind {A B} n (m : M A) (f : A -> M B) (Q : A -> Prop) (R : B -> Prop) :
  stable n m Q -> (forall a, Q a -> stable n (f a) R) -> stable n (sbind m f) R.
Proof.
  intros Hm Hf s Hs. destruct (Hm s Hs) as (Hlen & Htake & HQ).
  unfold sbind. destruct (m s) as [[a|e|] s1]; simpl in *.
  - destruct (Hf a (HQ a eq_refl) s1 Hlen) as (? & Ht & ?).
    repeat split; [done| |done]. by rewrite Ht.
  - repeat split; done.
  - repeat split; done.
Qed.

Lemma stable_dict_get n l : stable n (dict_get l) (fun _ => True).
Proof. intros s Hs. simpl. repeat split; done. Qed.

Lemma stable_dict_new n d : stable n (dict_new d) (fun l => n <= l).
Proof.
  intros s Hs. simpl. rewrite length_app. simpl. repeat split; [lia| |].
  - by rewrite take_app_le.
  - by intros ? [= <-].
Qed.

Lemma stable_dict_copy n l : stable n (dict_copy l) (fun l' => n <= l').
Proof.
  apply stable_bind with (Q := fun _ => True); [apply stable_dict_get|].
  intros d _. apply stable_dict_new.
Qed.

Lemma stable_dict_or n a b : stable n (dict_or a b) (fun l => n <= l).
Proof.
  apply stable_bind with (Q := fun _ => True); [apply stable_dict_get|].
  intros da _. apply stable_bind with (Q := fun _ => True); [apply stable_dict_get|].
  intros db _. apply stable_dict_new.
Qed.

Lemma stable_dict_or_val n a v : stable n (dict_or_val a v) (fun l => n <= l).
Proof. destruct v; [apply stable_raise|apply stable_dict_or]. Qed.

(** An update in place leaves the objects before the updated one alone. *)
Lemma stable_dict_set n l k v : n <= l -> stable n (dict_set l k v) (fun _ => True).
Proof.
  intros Hl s Hs. unfold dict_set. cbn [fst snd].
  rewrite length_insert. repeat split; [done|].
  by apply take_insert_ge.
Qed.

Section unify_stable.

Variable u : Predicate -> Predicate -> loc -> M pyval.
Variable depth n : nat.
Hypothesis u_stable : forall t1 t2 l, stable n (u t1 t2 l) (fun _ => True).

(** [unify_variable] writes to the dictionary it is given, and to no
    other. *)
Lemma unify_variable_with_stable variable term2 theta :
  n <= theta ->
  stable n (unify_variable_with u depth variable term2 theta) (fun _ => True).
Proof.
  intros Htheta. unfold unify_variable_with.
  apply stable_bind with (Q := fun _ => True); [apply stable_dict_get|].
  intros d _.
  destruct (has_key (name variable) d); [|destruct (has_key (name term2) d)].
  - apply stable_bind with (Q := fun _ => True); [apply stable_lift|]. intros ? _.
    apply stable_bind with (Q := fun _ => True); [apply stable_lift|]. intros ? _.
    apply stable_bind with (Q := fun _ => True); [apply u_stable|]. intros ? _.
    eapply stable_bind; [apply stable_dict_or_val|]. intros ? _.
    by apply stable_ret.
  - apply stable_bind with (Q := fun _ => True); [apply stable_lift|]. intros ? _.
    apply stable_bind with (Q := fun _ => True); [apply stable_lift|]. intros ? _.
    apply stable_bind with (Q := fun _ => True); [apply u_stable|]. intros ? _.
    eapply stable_bind; [apply stable_dict_or_val|]. intros ? _.
    by apply stable_ret.
  - apply stable_bind with (Q := fun _ => True); [by apply stable_dict_set|].
    intros ? _. by apply stable_ret.
Qed.

Lemma unify_inner_stable termOuter inner theta :
  stable n (unify_inner u termOuter inner theta) (fun _ => True).
Proof.
  revert theta. induction inner as [|termInner inner IH]; intros theta; simpl.
  - by apply stable_ret.
  - apply stable_bind with (Q := fun _ => True); [apply u_stable|].
    intros [|r] _; [by apply stable_ret|].
    eapply stable_bind; [apply stable_dict_or_val|]. intros ? _. apply IH.
Qed.

Lemma unify_outer_stable outer inner theta :
  stable n (unify_outer u outer inner theta) (fun _ => True).
Proof.
  revert theta. induction outer as [|termOuter outer IH]; intros theta; simpl.
  - by apply stable_ret.
  - apply stable_bind with (Q := fun _ => True); [apply unify_inner_stable|].
    intros [|r] _; [by apply stable_ret|apply IH].
Qed.

Lemma unify_with_stable t1 t2 oldTheta :
  stable n (unify_with u depth t1 t2 oldTheta) (fun _ => True).
Proof.
  unfold unify_with.
  eapply stable_bind; [apply stable_dict_copy|]. intros theta Htheta.
  destruct (Predicate_eq t1 t2); [by apply stable_ret|].
  destruct (ptype_eqb (type t1) VARIABLE_TYPE);
    [|destruct (ptype_eqb (type t2) VARIABLE_TYPE);
      [|destruct (ptype_eqb (type t2) FUNCTION_TYPE && ptype_eqb (type t1) FUNCTION_TYPE)]].
  - apply stable_bind with (Q := fun _ => True);
      [by apply unify_variable_with_stable|].
    intros [|r] _; [by apply stable_ret|].
    eapply stable_bind; [apply stable_dict_or_val|]. intros ? _. by apply stable_ret.
  - apply stable_bind with (Q := fun _ => True);
      [by apply unify_variable_with_stable|].
    intros [|r] _; [by apply stable_ret|].
    eapply stable_bind; [apply stable_dict_or_val|]. intros ? _. by apply stable_ret.
  - assert (Hname : forall w, stable n (name_before_paren w) (fun _ => True)).
    { intros w. unfold name_before_paren.
      destruct (Str.index "(" w); [by apply stable_ret|apply stable_raise]. }
    apply stable_bind with (Q := fun _ => True); [apply Hname|]. intros n1 _.
    apply stable_bind with (Q := fun _ => True); [apply Hname|]. intros n2 _.
    destruct (negb (String.eqb n1 n2)); [by apply stable_ret|].
    apply unify_outer_stable.
  - by apply stable_ret.
Qed.

End unify_stable.

(** [unify] leaves every dictionary of its caller as it is. *)
Lemma unify_stable (fuel n : nat) (t1 t2 : Predicate) (oldTheta : loc) :
  stable n (unify fuel t1 t2 oldTheta) (fun _ => True).
Proof.
  revert t1 t2 oldTheta. induction fuel as [|fuel IH]; intros t1 t2 oldTheta; simpl.
  - apply stable_out_of_fuel.
  - by apply unify_with_stable.
Qed.

(** C10: after a call of [unify], whatever its outcome (a substitution,
    [None], an exception, or no return within the fuel), the dictionary the
    caller passed holds the bindings it held before the call. *)
Theorem unify_never_mutates_oldTheta (fuel : nat) (t1 t2 : Predicate)
    (oldTheta : loc) (s : store) (theta : dict) :
  s !! oldTheta = Some theta ->
  (unify fuel t1 t2 oldTheta s).2 !! oldTheta = Some theta.
Proof.
  intros Hold.
  destruct (unify_stable fuel (S oldTheta) t1 t2 oldTheta s) as (_ & Htake & _).
  { apply lookup_lt_Some in Hold. lia. }
  rewrite <- (lookup_take_lt _ (S oldTheta)) by lia.
  rewrite Htake. rewrite lookup_take_lt by lia. done.
Qed.

Lemma unify_never_mutates_oldTheta_witness :
  (unify 2 y_ b_ 0 [ {[ "x"%string := "a"%string ]} ]).2 !! 0
  = Some ({[ "x"%string := "a"%string ]} : dict).
Proof. apply unify_never_mutates_oldTheta. reflexivity. Defined.

(** ** Following the bindings of a variable *)

(** C4, as the code has it: the lookup follows the bindings with no check
    for a cycle.  It returns a name exactly when the bindings lead from the
    variable to a name without a binding in fewer steps than the call depth
    allows, and that name is the result. *)
Theorem getFinalForm_spec (fuel : nat) (v : string) (theta : dict) (r : string) :
  getFinalForm fuel v theta = Ok r
  <-> exists k, k < fuel /\ follows theta k v r /\ theta !! r = None.
Proof.
  revert v. induction fuel as [|fuel IH]; intros v; simpl.
  - split; [done|]. intros (k & Hk & _). lia.
  - destruct (theta !! v) as [w|] eqn:Hv.
    + rewrite IH. split.
      * intros (k & Hk & Hf & Hr). exists (S k).
        repeat split; [lia| |done]. by eapply follows_step.
      * intros (k & Hk & Hf & Hr). inversion Hf; subst.
        -- congruence.
        -- exists k0. repeat split; [lia| |done]. congruence.
    + split.
      * intros [= <-]. exists 0. repeat split; [lia|constructor|done].
      * intros (k & Hk & Hf & Hr). inversion Hf; subst; [done|congruence].
Qed.

(** The lookup raises no exception. *)
Lemma getFinalForm_no_exception (fuel : nat) (v : string) (theta : dict) (e : exn) :
  getFinalForm fuel v theta <> Raise e.
Proof.
  revert v. induction fuel as [|fuel IH]; intros v; simpl; [done|].
  destruct (theta !! v); [apply IH|done].
Qed.

Lemma getFinalForm_cycle (fuel : nat) :
  getFinalForm fuel "x" theta_cycle = OutOfFuel
  /\ getFinalForm fuel "y" theta_cycle = OutOfFuel.
Proof.
  induction fuel as [|fuel [IHx IHy]]; [done|].
  split; simpl.
  - change (theta_cycle !! "x"%string) with (Some "y"%string). exact IHy.
  - change (theta_cycle !! "y"%string) with (Some "x"%string). exact IHx.
Qed.

(** C4 as stated fails: on the substitution binding x to y and y to x, the
    lookup of x comes to no end at any call depth. *)
Lemma getFinalForm_cycle_never_ends : ~ lookup_ends theta_cycle "x".
Proof. intros [fuel H]. apply H. apply getFinalForm_cycle. Qed.

(** A result of the lookup is the name itself or a bound value. *)
Lemma getFinalForm_result (fuel : nat) (v : string) (theta : dict) (r : string) :
  getFinalForm fuel v theta = Ok r ->
  theta !! r = None /\ (r = v \/ exists k, theta !! k = Some r).
Proof.
  revert v. induction fuel as [|fuel IH]; intros v; simpl; [done|].
  destruct (theta !! v) as [w|] eqn:Hv.
  - intros Hr. destruct (IH _ Hr) as (Hnone & [->|Hbound]); eauto.
  - intros [= <-]. eauto.
Qed.

(** The lookup of a name without a binding returns that name. *)
Lemma getFinalForm_unbound (fuel : nat) (v : string) (theta : dict) :
  theta !! v = None -> getFinalForm (S fuel) v theta = Ok v.
Proof. intros Hv. simpl. by rewrite Hv. Qed.

(** ** termParser always returns *)

Lemma lstrip_length (s : string) : String.length (Str.lstrip s) <= String.length s.
Proof.
  induction s as [|a s IH]; simpl; [lia|]. destruct (Str.is_space a); simpl; lia.
Qed.

Lemma rstrip_length (s : string) : String.length (Str.rstrip s) <= String.length s.
Proof.
  induction s as [|a s IH]; simpl; [lia|].
  destruct (Str.rstrip s); [destruct (Str.is_space a)|]; simpl in *; lia.
Qed.

Lemma strip_length (s : string) : String.length (Str.strip s) <= String.length s.
Proof.
  unfold Str.strip. etrans; [apply rstrip_length|apply lstrip_length].
Qed.

Lemma take_length_le (n : nat) (s : string) : String.length (Str.take n s) <= n.
Proof.
  revert s. induction n as [|n IH]; intros [|a s]; simpl; try lia.
  specialize (IH s). lia.
Qed.

Lemma index_Some_length (c : ascii) (s : string) (i : nat) :
  Str.index c s = Some i -> i < String.length s.
Proof.
  revert i. induction s as [|a s IH]; intros i; simpl; [done|].
  destruct (Ascii.eqb a c); [intros [= <-]; lia|].
  destruct (Str.index c s) as [j|]; simpl; [|done].
  intros [= <-]. specialize (IH j eq_refl). lia.
Qed.

Lemma split_length (c : ascii) (s x : string) :
  In x (Str.split c s) -> String.length x <= String.length s.
Proof.
  revert x. induction s as [|a s IH]; intros x; simpl.
  - intros [<-|[]]. simpl. lia.
  - destruct (Ascii.eqb a c).
    + intros [<-|Hx]; simpl; [lia|]. specialize (IH x Hx). lia.
    + destruct (Str.split c s) as [|h t] eqn:Hsplit.
      * intros [<-|[]]. simpl. lia.
      * intros [<-|Hx]; simpl.
        -- specialize (IH h (or_introl eq_refl)). lia.
        -- specialize (IH x (or_intror Hx)). lia.
Qed.

Lemma omap_returns {A B} (f : A -> outcome B) (l : list A) :
  (forall x, In x l -> f x <> OutOfFuel) -> omap f l <> OutOfFuel.
Proof.
  induction l as [|a l IH]; intros Hf; simpl; [done|].
  pose proof (Hf a (or_introl eq_refl)) as Ha.
  destruct (f a); simpl; [|done..].
  assert (Hl : omap f l <> OutOfFuel) by (apply IH; intros x Hx; apply Hf; by right).
  destruct (omap f l); simpl; done.
Qed.

Lemma termParser_at_returns (variables constants : gset string)
    (fuel : nat) (term_str : string) :
  String.length term_str < fuel ->
  termParser_at variables constants fuel term_str <> OutOfFuel.
Proof.
  revert term_str. induction fuel as [|fuel IH]; intros term_str Hlen; [lia|].
  simpl. pose proof (strip_length term_str) as Hstrip.
  destruct (Str.index "(" (Str.strip term_str)) as [first_paren|] eqn:Hparen.
  - apply index_Some_length in Hparen.
    match goal with
    | |- obind (omap ?f ?l) _ <> _ =>
        assert (Hargs : omap f l <> OutOfFuel); [|by destruct (omap f l)]
    end.
    apply omap_returns. intros x Hx%split_length. apply IH.
    unfold Str.slice in Hx.
    pose proof (take_length_le
      (String.length (Str.strip term_str) - 1 - (first_paren + 1))
      (Str.drop (first_paren + 1) (Str.strip term_str))). lia.
  - repeat case_bool_decide; done.
Qed.

(** X15: [termParser] comes to an end on every string, with a term or an
    exception: each of its recursive calls is on a string shorter than the
    one it was given, so a call depth of one more than the length of the
    string is never used up. *)
Lemma termParser_returns (variables constants : gset string) (term_str : string) :
  termParser variables constants term_str <> OutOfFuel.
Proof. apply termParser_at_returns. lia. Qed.

(** ** Applying a substitution twice *)

Section apply_twice.

Variables (variables constants : gset string).
Variable depth : nat.
Variable theta : dict.

Lemma getFinalPredicate_unfold n neg ts ty tag :
  getFinalPredicate variables constants depth (mkPredicate n neg ts ty tag) theta
  = (newTerms <- final_terms variables constants depth theta ts ;;
     Ok (mkPredicate (final_name tag newTerms) neg newTerms ty tag))%out.
Proof. reflexivity. Qed.

Lemma getFinalPredicate_type p p' :
  getFinalPredicate variables constants depth p theta = Ok p' -> type p' = type p.
Proof.
  destruct p as [n neg ts ty tag]. rewrite getFinalPredicate_unfold.
  destruct (final_terms variables constants depth theta ts); simpl; [|done..].
  by intros [= <-].
Qed.

Lemma variables_declared_terms n neg ts ty tag :
  variables_declared variables (mkPredicate n neg ts ty tag)
  <-> Forall (fun a => (type a = VARIABLE_TYPE -> name a ∈ variables)
                       /\ variables_declared variables a) ts.
Proof.
  simpl. induction ts as [|a ts IH].
  - split; [constructor|done].
  - rewrite Forall_cons, <- IH. tauto.
Qed.

Hypothesis no_function : binds_no_function theta.

(** the loop over the terms, given the property for each term *)
Lemma final_terms_twice ts :
  Forall (fun t => variables_declared variables t -> forall t',
            getFinalPredicate variables constants depth t theta = Ok t' ->
            getFinalPredicate variables constants depth t' theta = Ok t') ts ->
  Forall (fun a => (type a = VARIABLE_TYPE -> name a ∈ variables)
                   /\ variables_declared variables a) ts ->
  forall newTerms,
    final_terms variables constants depth theta ts = Ok newTerms ->
    final_terms variables constants depth theta newTerms = Ok newTerms.
Proof.
  induction ts as [|term rest IH]; intros Hrec Hdecl newTerms; simpl.
  - by intros [= <-].
  - apply Forall_cons in Hrec as [Hterm Hrec].
    apply Forall_cons in Hdecl as [[Hvar Hsub] Hdecl].
    specialize (IH Hrec Hdecl).
    destruct (type term) eqn:Hty.
    + (* a function term *)
      destruct (getFinalPredicate variables constants depth term theta)
        as [f| |] eqn:Hf; simpl; [|done..].
      destruct (final_terms variables constants depth theta rest)
        as [new| |] eqn:Hrest; simpl; [|done..].
      intros [= <-]. simpl.
      rewrite (getFinalPredicate_type _ _ Hf), Hty.
      rewrite (Hterm Hsub _ eq_refl). simpl. by rewrite (IH _ eq_refl).
    + (* a variable *)
      destruct (getFinalForm depth (name term) theta) as [ff| |] eqn:Hff;
        simpl; [|done..].
      destruct (getFinalForm_result _ _ _ _ Hff) as [Hnone Hfrom].
      assert (Hagain : getFinalForm depth ff theta = Ok ff).
      { destruct depth; [done|]. by apply getFinalForm_unbound. }
      unfold term_of_final_form.
      destruct (bool_decide (ff ∈ constants)) eqn:Hc; simpl.
      * destruct (final_terms variables constants depth theta rest)
          as [new| |] eqn:Hrest; simpl; [|done..].
        intros [= <-]. simpl. by rewrite (IH _ eq_refl).
      * destruct (bool_decide (ff ∈ variables)) eqn:Hv; simpl.
        -- destruct (final_terms variables constants depth theta rest)
             as [new| |] eqn:Hrest; simpl; [|done..].
           intros [= <-]. simpl. rewrite Hagain. simpl.
           unfold term_of_final_form. rewrite Hc, Hv. simpl.
           by rewrite (IH _ eq_refl).
        -- destruct Hfrom as [->|[k Hk]].
           ++ apply bool_decide_eq_false in Hv. by destruct Hv; apply Hvar.
           ++ rewrite (no_function _ _ Hk). done.
    + (* a term of type predicate is left out *)
      apply IH.
    + (* a constant *)
      destruct (final_terms variables constants depth theta rest)
        as [new| |] eqn:Hrest; simpl; [|done..].
      intros [= <-]. simpl. rewrite Hty. by rewrite (IH _ eq_refl).
Qed.

End apply_twice.

(** C9 as stated fails: the substitution binding x to the text of f(y) is
    fully resolved, and applying it to P(x) once and twice gives terms with
    different names, unequal under [==] too. *)
Lemma getFinalPredicate_not_idempotent :
  fully_resolved theta_x_fy
  /\ exists once twice,
      getFinalPredicate vars_xy consts_ab 2 P_x theta_x_fy = Ok once
      /\ getFinalPredicate vars_xy consts_ab 2 once theta_x_fy = Ok twice
      /\ name once = "P( f(y) )"%string
      /\ name twice = "P( f( y ) )"%string
      /\ Predicate_eq once twice = false.
Proof.
  split.
  - apply map_Forall_singleton. reflexivity.
  - eexists _, _. split; [vm_compute; reflexivity|].
    split; [vm_compute; reflexivity|]. repeat split.
Qed.

(** C9, as the code has it: for a fully resolved substitution none of whose
    bound values is the text of a function term, and a term whose variables
    are declared variables, whenever applying the substitution returns a
    term, applying it to that term returns the identical term. *)
Theorem getFinalPredicate_idempotent (variables constants : gset string)
    (depth : nat) (theta : dict) (p p' : Predicate) :
  fully_resolved theta ->
  binds_no_function theta ->
  variables_declared variables p ->
  getFinalPredicate variables constants depth p theta = Ok p' ->
  getFinalPredicate variables constants depth p' theta = Ok p'.
Proof.
  intros _ Hno. revert p'.
  induction p as [n neg ts ty tag IH] using Predicate_ind'.
  intros p' Hdecl%variables_declared_terms.
  rewrite getFinalPredicate_unfold.
  destruct (final_terms variables constants depth theta ts) as [new| |] eqn:Hts;
    simpl; [|done..].
  intros [= <-]. rewrite getFinalPredicate_unfold.
  assert (Hrec : Forall (fun t => variables_declared variables t -> forall t',
              getFinalPredicate variables constants depth t theta = Ok t' ->
              getFinalPredicate variables constants depth t' theta = Ok t') ts).
  { eapply Forall_impl; [exact IH|]. simpl. intros t Ht Hd t'. by apply Ht. }
  by rewrite (final_terms_twice variables constants depth theta Hno ts Hrec Hdecl new Hts).
Qed.

Lemma getFinalPredicate_idempotent_witness :
  getFinalPredicate vars_xy consts_ab 2
    (mkPredicate "P( a f( y ) )" false
       [a_; mkPredicate "f( y )" false [y_] FUNCTION_TYPE "f"] PREDICATE_TYPE "P")
    {[ "x"%string := "a"%string ]}
  = Ok (mkPredicate "P( a f( y ) )" false
          [a_; mkPredicate "f( y )" false [y_] FUNCTION_TYPE "f"] PREDICATE_TYPE "P").
Proof.
  apply (getFinalPredicate_idempotent vars_xy consts_ab 2 {[ "x"%string := "a"%string ]}
           (Literal "P" false [x_; Function "f(y)" "f" [y_]])).
  - apply map_Forall_singleton. reflexivity.
  - apply map_Forall_singleton. reflexivity.
  - simpl. repeat split; intros; try done; apply bool_decide_unpack; vm_compute; exact I.
  - vm_compute. reflexivity.
Defined.

(** ** The resolvent of a pair of literals *)

(** C7: resolving [P(x) P(b)] with [!P(a)] on the pair P(x), !P(a).  The
    resolvent should keep P(b), the other literal of the first parent, and
    the branch for literals without arguments would; the loop after a
    unification skips every literal whose name is that of the matched one,
    so P(b) is dropped and the resolvent is the empty clause. *)
Theorem resolve_drops_literal_of_same_name (depth fresh : nat) :
  resolve vars_xy consts_ab (S depth) clause_Px_Pb clause_notPa fresh
  = Ok ([mkClause "" []; clause_Px_Pb; clause_notPa], fresh).
Proof. vm_compute. reflexivity. Qed.

(** The loop for literals without arguments skips the matched object only:
    of the two literals A of the first parent, each resolvent keeps the
    other one. *)
Lemma resolve_nullary_keeps_literal_of_same_name (depth fresh : nat) :
  resolve vars_xy consts_ab depth clause_A_A clause_notA fresh
  = Ok ([mkClause "A " [mkObj 1 (Literal "A" false [])];
         mkClause "A " [mkObj 0 (Literal "A" false [])];
         clause_A_A; clause_notA], fresh).
Proof. vm_compute. reflexivity. Qed.

(** The engine then answers "no" for the satisfiable set of the two
    clauses. *)
Lemma resolver_no_on_satisfiable_set (depth rounds : nat) :
  resolver vars_xy consts_ab (fun s => s) (S depth) (S rounds)
           [clause_Px_Pb; clause_notPa]
  = Ok No.
Proof. vm_compute. reflexivity. Qed.

(** ** Sets of clauses *)

Lemma Clause_eq_refl (c : Clause) : Clause_eq c c = true.
Proof.
  apply Clause_eq_true. repeat split. intros i Hi. unfold Clause_eq_at.
  destruct (predicates c !! i); [apply Predicate_eq_refl|done].
Qed.

Lemma Clause_eq_sym (c1 c2 : Clause) : Clause_eq c1 c2 = Clause_eq c2 c1.
Proof.
  apply eq_true_iff_eq. rewrite !Clause_eq_true.
  split; intros (Hn & Hl & Hat); repeat split; try done.
  - intros i Hi. specialize (Hat i ltac:(lia)). unfold Clause_eq_at in *.
    destruct (predicates c1 !! i), (predicates c2 !! i); try done.
    by rewrite Predicate_eq_sym.
  - intros i Hi. specialize (Hat i ltac:(lia)). unfold Clause_eq_at in *.
    destruct (predicates c1 !! i), (predicates c2 !! i); try done.
    by rewrite Predicate_eq_sym.
Qed.

Lemma Clause_eq_trans (c1 c2 c3 : Clause) :
  Clause_eq c1 c2 = true -> Clause_eq c2 c3 = true -> Clause_eq c1 c3 = true.
Proof.
  rewrite !Clause_eq_true. intros (Hn & Hl & Hat) (Hn' & Hl' & Hat').
  repeat split; [congruence..|].
  intros i Hi. specialize (Hat i Hi). specialize (Hat' i ltac:(lia)).
  unfold Clause_eq_at in *.
  destruct (predicates c1 !! i) as [p|] eqn:Hp; [|done].
  destruct (predicates c3 !! i) as [r|] eqn:Hr; [|done].
  destruct (lookup_lt_is_Some_2 (predicates c2) i ltac:(lia)) as [q Hq].
  rewrite Hq in Hat, Hat'. by eapply Predicate_eq_trans.
Qed.

(** Membership does not tell equal clauses apart. *)
Lemma set_mem_proper (x y : Clause) (s : cset) :
  Clause_eq x y = true -> set_mem x s = set_mem y s.
Proof.
  intros Hxy. unfold set_mem. induction s as [|e s IH]; simpl; [done|].
  rewrite IH. f_equal. apply eq_true_iff_eq. split; intros H.
  - by eapply Clause_eq_trans.
  - eapply Clause_eq_trans; [done|]. by rewrite Clause_eq_sym.
Qed.

Lemma set_mem_add (c x : Clause) (s : cset) :
  set_mem c (set_add s x) = set_mem c s || Clause_eq x c.
Proof.
  unfold set_add. destruct (set_mem x s) eqn:Hx.
  - destruct (Clause_eq x c) eqn:Hxc; [|by rewrite orb_false_r].
    rewrite orb_true_r. by rewrite <- (set_mem_proper x c).
  - unfold set_mem. rewrite existsb_app. simpl. by rewrite orb_false_r.
Qed.

Lemma set_mem_fold_add (c : Clause) (l : list Clause) (s : cset) :
  set_mem c (fold_left set_add l s)
  = set_mem c s || existsb (fun r => Clause_eq r c) l.
Proof.
  revert s. induction l as [|x l IH]; intros s; simpl.
  - by rewrite orb_false_r.
  - rewrite IH, set_mem_add. by rewrite orb_assoc.
Qed.

Lemma set_mem_union (c : Clause) (a b : cset) :
  set_mem c (set_union a b) = set_mem c a || set_mem c b.
Proof. apply set_mem_fold_add. Qed.

Lemma set_mem_of_list (c : Clause) (l : list Clause) :
  set_mem c (set_of_list l) = existsb (fun r => Clause_eq r c) l.
Proof. unfold set_of_list. by rewrite set_mem_fold_add. Qed.

Lemma set_mem_In (c : Clause) (s : cset) : In c s -> set_mem c s = true.
Proof.
  intros Hc. unfold set_mem. apply existsb_exists. exists c.
  split; [done|apply Clause_eq_refl].
Qed.

(** Adding clauses to a set brings no other element than those added. *)
Lemma fold_add_In (e : Clause) (l : list Clause) (s : cset) :
  In e (fold_left set_add l s) -> In e s \/ In e l.
Proof.
  revert s. induction l as [|x l IH]; intros s; simpl; [auto|].
  intros [H|H]%IH; [|auto]. unfold set_add in H.
  destruct (set_mem x s); [auto|]. apply in_app_or in H as [H|[H|[]]]; auto.
Qed.

(** a set within another one: every member of the first is a member of the
    second *)
Lemma issubset_mem (a b : cset) (c : Clause) :
  issubset a b = true -> set_mem c a = true -> set_mem c b = true.
Proof.
  unfold issubset. rewrite forallb_forall. intros Hab Hc.
  unfold set_mem in Hc at 1. apply existsb_exists in Hc as (e & He & Hec).
  rewrite <- (set_mem_proper e c) by done. by apply Hab.
Qed.

(** ** A round of the saturation loop *)

Section round.

Variables (variables constants : gset string).
Variable depth : nat.

Lemma round_inner_flat c1 later rest new_clause fresh :
  obind (round_inner variables constants depth c1 later new_clause fresh)
        (fun r => match r with
                  | Exited => Ok Exited
                  | Collected new_clause fresh =>
                      round_flat variables constants depth rest new_clause fresh
                  end)
  = round_flat variables constants depth (map (pair c1) later ++ rest)
               new_clause fresh.
Proof.
  revert new_clause fresh.
  induction later as [|c2 later IH]; intros new_clause fresh; simpl; [done|].
  destruct (resolve variables constants depth c1 c2 fresh)
    as [[resolvents fresh1]| |]; simpl; [|done..].
  destruct (has_empty_clause resolvents); [done|]. apply IH.
Qed.

Lemma round_outer_flat clause_loop new_clause fresh :
  round_outer variables constants depth clause_loop new_clause fresh
  = round_flat variables constants depth (round_pairs clause_loop)
               new_clause fresh.
Proof.
  revert new_clause fresh.
  induction clause_loop as [|c1 later IH]; intros new_clause fresh; simpl; [done|].
  rewrite <- round_inner_flat.
  destruct (round_inner variables constants depth c1 later new_clause fresh)
    as [[|new1 fresh1]| |]; simpl; try done.
Qed.

(** how a round ends, from the resolvents it produces *)
Lemma round_flat_resolvents pairs new_clause fresh rs fresh' :
  round_resolvents variables constants depth pairs fresh = Ok (rs, fresh') ->
  (has_empty_clause rs = true ->
     round_flat variables constants depth pairs new_clause fresh = Ok Exited)
  /\ (has_empty_clause rs = false ->
      exists new',
        round_flat variables constants depth pairs new_clause fresh
        = Ok (Collected new' fresh')
        /\ (forall c, set_mem c new'
                      = set_mem c new_clause || existsb (fun r => Clause_eq r c) rs)
        /\ (forall e, In e new' -> In e new_clause \/ In e rs)).
Proof.
  revert new_clause fresh rs.
  induction pairs as [|[c1 c2] rest IH]; intros new_clause fresh rs; simpl.
  - intros [= <- <-]. split; [done|]. intros _. exists new_clause.
    repeat split; [|auto]. intros c. simpl. by rewrite orb_false_r.
  - destruct (resolve variables constants depth c1 c2 fresh)
      as [[resolvents fresh1]| |]; simpl; [|done..].
    destruct (round_resolvents variables constants depth rest fresh1)
      as [[more fresh2]| |] eqn:Hrest; simpl; [|done..].
    intros [= <- <-].
    assert (Happ : has_empty_clause (resolvents ++ more)
                   = has_empty_clause resolvents || has_empty_clause more)
      by apply existsb_app.
    rewrite Happ. clear Happ.
    destruct (IH (set_union new_clause (set_of_list resolvents)) fresh1 more Hrest)
      as [IHexit IHgo].
    destruct (has_empty_clause resolvents); simpl.
    + split; [done|discriminate].
    + split; [exact IHexit|].
      intros Hmore. destruct (IHgo Hmore) as (new' & Hrun & Hmem & Hin).
      exists new'. repeat split; [done| |].
      * intros c. rewrite Hmem, set_mem_union, set_mem_of_list, existsb_app.
        by rewrite orb_assoc.
      * intros e [He|He]%Hin; [|rewrite in_app_iff; auto].
        apply fold_add_In in He as [He|He]; [auto|].
        apply fold_add_In in He as [[]|He]. rewrite in_app_iff. auto.
Qed.

End round.

(** ** The tests of a round, spelled out *)

(** [Clause("", []) == c]: the name is empty and there is no literal *)
Lemma Clause_eq_empty (c : Clause) :
  Clause_eq c (mkClause "" []) = true <-> is_empty_clause c.
Proof.
  rewrite Clause_eq_true. unfold is_empty_clause. simpl. split.
  - intros (Hn & Hl & _). split; [done|]. by apply nil_length_inv.
  - intros [Hn Hp]. rewrite Hp. repeat split; try done. simpl. intros i Hi. lia.
Qed.

Lemma has_empty_clause_Exists (rs : list Clause) :
  has_empty_clause rs = true <-> Exists is_empty_clause rs.
Proof.
  unfold has_empty_clause. rewrite existsb_exists, List.Exists_exists.
  split; intros (r & Hr & He); exists r; split; try done; by apply Clause_eq_empty.
Qed.

Lemma has_empty_clause_Forall (rs : list Clause) :
  has_empty_clause rs = false <-> Forall (fun r => ~ is_empty_clause r) rs.
Proof.
  rewrite <- not_true_iff_false, has_empty_clause_Exists.
  rewrite List.Forall_forall, List.Exists_exists. split.
  - intros Hno r Hr He. apply Hno. eauto.
  - intros Hall (r & Hr & He). by apply (Hall r).
Qed.

Lemma same_by_position_eq (e r : Clause) :
  same_by_position e r -> Clause_eq e r = true.
Proof.
  intros [Hn Hall]. apply Clause_eq_true. repeat split; try done.
  - by eapply Forall2_length.
  - intros i Hi. unfold Clause_eq_at.
    destruct (predicates e !! i) as [p|] eqn:Hp; [|done].
    destruct (predicates r !! i) as [q|] eqn:Hq; [|done].
    exact (Forall2_lookup_lr _ _ _ _ _ _ Hall Hp Hq).
Qed.

Lemma eq_alike_before_last (e r : Clause) :
  Clause_eq e r = true -> alike_before_last e r.
Proof.
  intros (Hn & Hl & Hat)%Clause_eq_true. repeat split; try done.
  intros i p q Hi Hp Hq. specialize (Hat i ltac:(lia)).
  unfold Clause_eq_at in Hat. by rewrite Hp, Hq in Hat.
Qed.

(** [r in s] holds when [s] has a clause of the name of [r] with equal
    literals at every position, and only when it has one of that name and
    length with equal literals before the last position. *)
Lemma set_mem_same_by_position (r : Clause) (s : cset) :
  (exists e, In e s /\ same_by_position e r) -> set_mem r s = true.
Proof.
  intros (e & He & Hsame). apply existsb_exists. exists e.
  split; [done|by apply same_by_position_eq].
Qed.

Lemma set_mem_alike_before_last (r : Clause) (s : cset) :
  set_mem r s = true -> exists e, In e s /\ alike_before_last e r.
Proof.
  intros (e & He & Heq)%existsb_exists. exists e.
  split; [done|by apply eq_alike_before_last].
Qed.

Lemma fold_add_keeps (e : Clause) (l : list Clause) (s : cset) :
  In e s -> In e (fold_left set_add l s).
Proof.
  revert s. induction l as [|x l IH]; intros s He; simpl; [done|].
  apply IH. unfold set_add. destruct (set_mem x s); [done|].
  apply in_or_app. auto.
Qed.

(** A clause that a union brings in was no member before. *)
Lemma fold_add_In_new (e : Clause) (l : list Clause) (s : cset) :
  In e (fold_left set_add l s) -> In e s \/ (In e l /\ set_mem e s = false).
Proof.
  revert s. induction l as [|x l IH]; intros s; simpl; [auto|].
  intros [H|[H Hnew]]%IH.
  - unfold set_add in H. destruct (set_mem x s) eqn:Hx; [auto|].
    apply in_app_or in H as [H|[<-|[]]]; auto.
  - right. split; [auto|]. rewrite set_mem_add in Hnew.
    by apply orb_false_iff in Hnew as [? _].
Qed.

(** A round up to a pair of clauses: the pairs before it resolve, none to
    the empty clause. *)
Lemma round_flat_prefix (variables constants : gset string) (depth : nat)
    (before rest : list (Clause * Clause)) (new_clause : cset) (fresh : nat)
    (rs0 : list Clause) (fresh0 : nat) :
  round_resolvents variables constants depth before fresh = Ok (rs0, fresh0) ->
  has_empty_clause rs0 = false ->
  exists new0,
    round_flat variables constants depth (before ++ rest) new_clause fresh
    = round_flat variables constants depth rest new0 fresh0.
Proof.
  revert new_clause fresh rs0.
  induction before as [|[c1 c2] before IH]; intros new_clause fresh rs0; simpl.
  - intros [= <- <-] _. by exists new_clause.
  - destruct (resolve variables constants depth c1 c2 fresh)
      as [[resolvents fresh1]| |]; simpl; [|done..].
    destruct (round_resolvents variables constants depth before fresh1)
      as [[more fresh2]| |] eqn:Hrest; simpl; [|done..].
    intros [= <- <-] Hempty.
    assert (Happ : has_empty_clause (resolvents ++ more)
                   = has_empty_clause resolvents || has_empty_clause more)
      by apply existsb_app.
    rewrite Happ in Hempty. apply orb_false_iff in Hempty as [-> Hmore].
    by apply (IH _ _ _ Hrest).
Qed.

(** C3 as stated fails.  On the clauses of the lines [A B C], [!A] and
    [C B] the first round resolves every pair, no resolvent is empty, and
    every resolvent is among the known clauses by its literals: the only new
    one has the literals B and C of the third clause.  The round does not
    end the run with "yes": the resolvent has the name "B C " and the
    literals in the other order, so the subset test fails and another round
    is started. *)
Lemma resolver_runs_on_with_known_resolvents :
  round_resolvents ∅ ∅ 0
    (round_pairs [clause_A_B_C; clause_notA_3; clause_C_B]) 6
  = Ok ([resolvent_B_C; clause_A_B_C; clause_notA_3; clause_A_B_C; clause_C_B;
         clause_notA_3; clause_C_B], 6)
  /\ Forall (fun r => predicates r <> []
                      /\ known_by_literals r [clause_A_B_C; clause_notA_3; clause_C_B])
            [resolvent_B_C; clause_A_B_C; clause_notA_3; clause_A_B_C; clause_C_B;
             clause_notA_3; clause_C_B]
  /\ round_outer ∅ ∅ 0 [clause_A_B_C; clause_notA_3; clause_C_B] [] 6
     = Ok (Collected [resolvent_B_C; clause_A_B_C; clause_notA_3; clause_C_B] 6)
  /\ issubset [resolvent_B_C; clause_A_B_C; clause_notA_3; clause_C_B]
              [clause_A_B_C; clause_notA_3; clause_C_B] = false
  /\ resolver_loop ∅ ∅ (fun s => s) 0 1
       [clause_A_B_C; clause_notA_3; clause_C_B] [] 6 = OutOfFuel
  /\ resolver_loop ∅ ∅ (fun s => s) 0 1
       [clause_A_B_C; clause_notA_3; clause_C_B] [] 6 <> Ok Yes.
Proof.
  split; [vm_compute; reflexivity|].
  split.
  { assert (Hin : forall c, In c [clause_A_B_C; clause_notA_3; clause_C_B] ->
                    known_by_literals c [clause_A_B_C; clause_notA_3; clause_C_B]).
    { intros c Hc. exists c. split; [done|]. unfold same_literals. reflexivity. }
    repeat apply List.Forall_cons; try apply List.Forall_nil;
      (split; [discriminate|]); try (apply Hin; simpl; tauto).
    exists clause_C_B. split; [simpl; tauto|]. unfold same_literals. simpl.
    apply perm_swap. }
  repeat split; try (vm_compute; reflexivity). vm_compute. discriminate.
Qed.

(** C3, as the code has it.  The engine compares clauses with
    [Clause.__eq__], by name and position, and the empty clause is the one
    with the empty name and no literal.  In a round started with
    [new_clause] within the known clauses (as at the start and after every
    round):
    - if the pairs before some pair resolve, none to the empty clause, and
      that pair resolves to the empty clause among its resolvents, the engine
      ends with "no", whatever the pairs after it would do; if instead the
      call of [resolve] on that pair raises, the engine ends with that
      exception;
    - if every pair resolves and no resolvent is the empty clause, the
      engine ends with "yes" when every resolvent has a known clause of its
      name with equal literals position by position; and when some
      resolvent has no known clause of its name and its number of literals
      with equal literals before the last position, another round runs on
      a clause set that keeps the known clauses, gains nothing but
      resolvents of this round, and has for each resolvent a clause of
      its name and length with equal literals before the last position. *)
Theorem resolver_round_cases (variables constants : gset string)
    (set_order : cset -> list Clause) (depth rounds : nat)
    (current_clauses new_clause : cset) (fresh : nat) :
  issubset new_clause current_clauses = true ->
  (forall before c1 c2 after rs0 fresh0,
     round_pairs (set_order current_clauses) = before ++ (c1, c2) :: after ->
     round_resolvents variables constants depth before fresh = Ok (rs0, fresh0) ->
     Forall (fun r => ~ is_empty_clause r) rs0 ->
     (forall rs1 fresh1,
        resolve variables constants depth c1 c2 fresh0 = Ok (rs1, fresh1) ->
        Exists is_empty_clause rs1 ->
        resolver_loop variables constants set_order depth (S rounds)
                      current_clauses new_clause fresh = Ok No)
     /\ (forall e,
           resolve variables constants depth c1 c2 fresh0 = Raise e ->
           resolver_loop variables constants set_order depth (S rounds)
                         current_clauses new_clause fresh = Raise e))
  /\ (forall rs fresh',
        round_resolvents variables constants depth
                         (round_pairs (set_order current_clauses)) fresh
        = Ok (rs, fresh') ->
        Forall (fun r => ~ is_empty_clause r) rs ->
        (Forall (fun r => exists e, In e current_clauses /\ same_by_position e r) rs ->
         resolver_loop variables constants set_order depth (S rounds)
                       current_clauses new_clause fresh = Ok Yes)
        /\ (Exists (fun r => forall e, In e current_clauses ->
                               ~ alike_before_last e r) rs ->
            exists current' new',
              resolver_loop variables constants set_order depth (S rounds)
                            current_clauses new_clause fresh
              = resolver_loop variables constants set_order depth rounds
                              current' new' fresh'
              /\ issubset new' current' = true
              /\ (forall c, In c current_clauses -> In c current')
              /\ (forall c, In c current' -> In c current_clauses \/ In c rs)
              /\ Forall (fun r => exists e, In e current' /\ alike_before_last e r)
                        rs)).
Proof.
  intros Hsub. split.
  - intros before c1 c2 after rs0 fresh0 Hpairs Hbefore Hrs0.
    apply has_empty_clause_Forall in Hrs0.
    destruct (round_flat_prefix variables constants depth before ((c1, c2) :: after)
                new_clause fresh rs0 fresh0 Hbefore Hrs0) as [new0 Hrun].
    split.
    + intros rs1 fresh1 Hres Hrs1%has_empty_clause_Exists.
      simpl. rewrite round_outer_flat, Hpairs, Hrun. simpl.
      rewrite Hres. simpl. by rewrite Hrs1.
    + intros e Hres. simpl. rewrite round_outer_flat, Hpairs, Hrun. simpl.
      by rewrite Hres.
  - intros rs fresh' Hrs Hempty%has_empty_clause_Forall.
    destruct (round_flat_resolvents variables constants depth _ new_clause _ _ _ Hrs)
      as [_ Hgo].
    destruct (Hgo Hempty) as (new' & Hrun & Hmem & Hin). split.
    + intros Hknown. simpl. rewrite round_outer_flat, Hrun. simpl.
      assert (issubset new' current_clauses = true) as ->; [|done].
      apply forallb_forall. intros e [He|He]%Hin.
      * apply (issubset_mem new_clause); [done|by apply set_mem_In].
      * apply set_mem_same_by_position.
        exact (proj1 (List.Forall_forall _ _) Hknown e He).
    + intros (r & Hr & Hnone)%List.Exists_exists.
      simpl. rewrite round_outer_flat, Hrun. simpl.
      assert (issubset new' current_clauses = false) as ->.
      { apply not_true_is_false. intros Hsub'.
        assert (Hmem_r : set_mem r current_clauses = true).
        { apply (issubset_mem new'); [done|]. rewrite Hmem.
          apply orb_true_iff. right. apply existsb_exists. exists r.
          split; [done|apply Clause_eq_refl]. }
        apply set_mem_alike_before_last in Hmem_r as (e & He & Halike).
        by apply (Hnone e). }
      exists (set_union current_clauses new'), new'. repeat split.
      * apply forallb_forall. intros e He. rewrite set_mem_union.
        apply orb_true_iff. right. by apply set_mem_In.
      * intros c Hc. by apply fold_add_keeps.
      * intros c [Hc|[Hc Hnew]]%fold_add_In_new; [auto|].
        apply Hin in Hc as [Hc|Hc]; [|auto].
        rewrite (issubset_mem new_clause current_clauses c Hsub) in Hnew; [done|].
        by apply set_mem_In.
      * apply List.Forall_forall. intros r' Hr'.
        apply set_mem_alike_before_last. rewrite set_mem_union, Hmem.
        apply orb_true_iff. right. apply orb_true_iff. right.
        apply existsb_exists. exists r'. split; [done|apply Clause_eq_refl].
Qed.

(** On the clauses of the lines [P(x)], [!P(a)], [Q(x,x)] and [!Q(a,b)] the
    first pair resolves to the empty clause and the engine ends with "no";
    the pair of the last two clauses, which would raise, is never
    resolved. *)
Lemma resolver_round_cases_witness :
  resolver_loop vars_xy consts_ab (fun s => s) 3 1
                [clause_Px; clause_notPa'; clause_Qxx; clause_notQab] [] 4
  = Ok No.
Proof.
  refine (proj1 (proj1 (resolver_round_cases vars_xy consts_ab (fun s => s) 3 0
                          [clause_Px; clause_notPa'; clause_Qxx; clause_notQab] [] 4 _)
                   [] clause_Px clause_notPa'
                   [(clause_Px, clause_Qxx); (clause_Px, clause_notQab);
                    (clause_notPa', clause_Qxx); (clause_notPa', clause_notQab);
                    (clause_Qxx, clause_notQab)] [] 4 _ _ _)
            [mkClause "" []; clause_Px; clause_notPa'] 4 _ _).
  - reflexivity.
  - reflexivity.
  - reflexivity.
  - apply List.Forall_nil.
  - vm_compute. reflexivity.
  - apply List.Exists_cons_hd. split; reflexivity.
Defined.

(** The pairs of these four clauses do not all resolve: the last one
    raises. *)
Lemma round_resolvents_raise_after_exit :
  round_resolvents vars_xy consts_ab 3
    (round_pairs [clause_Px; clause_notPa'; clause_Qxx; clause_notQab]) 4
  = Raise TypeError.
Proof. vm_compute. reflexivity. Qed.

(** A round whose resolvents are all known ends with "yes". *)
Lemma resolver_round_yes :
  resolver_loop vars_xy consts_ab (fun s => s) 3 1
                [clause_Px; clause_Qa] [] 3 = Ok Yes.
Proof. vm_compute. reflexivity. Qed.

(** A round the statement above says nothing about.  A resolvent of one
    negated literal is named "!" whatever the literal, and [Clause.__eq__] does not compare
    the last literal: on the clauses of the lines [!B A], [!A] and [!X B]
    the first round adds the resolvents [!B] and [A !X], the second round
    produces [!X], which is among the known clauses by its literals for no
    known clause, and the engine ends with "yes" without adding it. *)
Lemma resolver_yes_with_unknown_resolvent :
  round_outer ∅ ∅ 0 [clause_notB_A; clause_notA; clause_notX_B] [] 5
  = Ok (Collected [resolvent_notB; clause_notB_A; clause_notA; resolvent_A_notX;
                   clause_notX_B] 5)
  /\ set_union [clause_notB_A; clause_notA; clause_notX_B]
               [resolvent_notB; clause_notB_A; clause_notA; resolvent_A_notX;
                clause_notX_B]
     = [clause_notB_A; clause_notA; clause_notX_B; resolvent_notB; resolvent_A_notX]
  /\ (exists rs fresh',
        round_resolvents ∅ ∅ 0
          (round_pairs [clause_notB_A; clause_notA; clause_notX_B;
                        resolvent_notB; resolvent_A_notX]) 5 = Ok (rs, fresh')
        /\ In resolvent_notX rs)
  /\ ~ known_by_literals resolvent_notX
         [clause_notB_A; clause_notA; clause_notX_B; resolvent_notB; resolvent_A_notX]
  /\ resolver_loop ∅ ∅ (fun s => s) 0 1
       [clause_notB_A; clause_notA; clause_notX_B; resolvent_notB; resolvent_A_notX]
       [resolvent_notB; clause_notB_A; clause_notA; resolvent_A_notX; clause_notX_B] 5
     = Ok Yes.
Proof.
  split; [vm_compute; reflexivity|].
  split; [vm_compute; reflexivity|].
  split.
  { eexists _, _. split; [vm_compute; reflexivity|].
    repeat (first [left; reflexivity | right]). }
  split; [|vm_compute; reflexivity].
  intros (e & He & Hperm). unfold same_literals in Hperm.
  simpl in He.
  destruct He as [<-|[<-|[<-|[<-|[<-|[]]]]]]; simpl in Hperm;
    try (apply Permutation_length in Hperm; discriminate);
    apply Permutation_length_1 in Hperm; discriminate.
Qed.

(** ** A call of resolve that builds a cyclic substitution *)

Lemma getFinalPredicate_on_cycle (depth : nat) :
  getFinalPredicate vars_xy consts_ab depth (Literal "P" false [x_]) theta_cycle
  = OutOfFuel.
Proof.
  unfold Literal. rewrite getFinalPredicate_unfold. simpl.
  by rewrite (proj1 (getFinalForm_cycle depth)).
Qed.


(** The loops of [resolve] up to a given pair of literals. *)
Section resolve_loops.

Variables (variables constants : gset string).
Variable depth : nat.
Variables (clause1 clause2 : Clause).

Lemma resolve_inner_app c1_pred before c2_pred after st st' :
  resolve_inner variables constants depth clause1 clause2 c1_pred before st = Ok st' ->
  resolve_inner variables constants depth clause1 clause2 c1_pred
                (before ++ c2_pred :: after) st
  = obind (resolve_pair variables constants depth clause1 clause2 c1_pred c2_pred st')
          (resolve_inner variables constants depth clause1 clause2 c1_pred after).
Proof.
  revert st. induction before as [|q before IH]; intros st; simpl.
  - by intros [= <-].
  - destruct (resolve_pair variables constants depth clause1 clause2 c1_pred q st);
      simpl; [apply IH|done..].
Qed.

Lemma resolve_outer_app before c1_pred after st st' :
  resolve_outer variables constants depth clause1 clause2 before st = Ok st' ->
  resolve_outer variables constants depth clause1 clause2
                (before ++ c1_pred :: after) st
  = obind (resolve_inner variables constants depth clause1 clause2 c1_pred
                         (predicates clause2) st')
          (resolve_outer variables constants depth clause1 clause2 after).
Proof.
  revert st. induction before as [|p before IH]; intros st; simpl.
  - by intros [= <-].
  - destruct (resolve_inner variables constants depth clause1 clause2 p
                            (predicates clause2) st);
      simpl; [apply IH|done..].
Qed.

End resolve_loops.

(** the pair Q(y), !Q(x) after x has been bound to y *)
Lemma resolve_pair_on_cycle (d : nat) (st : resolve_state) :
  global_unification st = {[ "x"%string := "y"%string ]} ->
  resolve_pair vars_xy consts_ab (S (S d)) clause_PQR clause_notP_notQ
    (mkObj 1 (Literal "Q" false [y_])) (mkObj 4 (Literal "Q" true [x_])) st
  = OutOfFuel.
Proof.
  destruct st as [g out n]. simpl. intros ->.
  assert (Hu : unify_predicates_on (S (S d)) (Literal "Q" false [y_]) (Literal "Q" true [x_])
               = Ok (Some {[ "y"%string := "x"%string ]})) by (vm_compute; reflexivity).
  assert (Hg : ({[ "y"%string := "x"%string ]} ∪ {[ "x"%string := "y"%string ]} : dict)
               = theta_cycle) by (vm_compute; reflexivity).
  unfold resolve_pair.
  cbn [pred nameTag negated terms Literal y_ x_ Variable_ global_unification next_oid
       String.eqb Ascii.eqb Bool.eqb negb andb].
  cbn [Literal y_ x_ Variable_] in Hu. rewrite Hu. cbn [obind]. rewrite Hg.
  unfold clause_PQR at 1.
  cbn [predicates combine_name pred name Literal String.eqb Ascii.eqb Bool.eqb].
  rewrite getFinalPredicate_on_cycle. reflexivity.
Qed.

(** A cyclic substitution does arise: resolving [P(x) Q(y) R(x)] with
    [!P(y) !Q(x)] binds x to y on the first pair of literals and y to x on
    the second, and the lookup of x for the resolvent of the second pair
    does not return at any call depth. *)
Lemma resolve_builds_cycle (depth fresh : nat) :
  resolve vars_xy consts_ab depth clause_PQR clause_notP_notQ fresh = OutOfFuel.
Proof.
  destruct depth as [|[|d]]; [vm_compute; reflexivity..|].
  unfold resolve.
  change (predicates clause_PQR)
    with ([mkObj 0 (Literal "P" false [x_])]
          ++ mkObj 1 (Literal "Q" false [y_]) :: [mkObj 2 (Literal "R" false [x_])]).
  erewrite resolve_outer_app; [|vm_compute; reflexivity].
  change (predicates clause_notP_notQ)
    with ([mkObj 3 (Literal "P" true [y_])] ++ mkObj 4 (Literal "Q" true [x_]) :: []).
  erewrite resolve_inner_app; [|vm_compute; reflexivity].
  rewrite resolve_pair_on_cycle; reflexivity.
Qed.

(** * Further properties of the code *)

(** ** The substitution unify returns *)

Lemma deref_app_new (s : store) (d : dict) : deref (s ++ [d]) (length s) = d.
Proof. unfold deref. by rewrite lookup_app_r, Nat.sub_diag by lia. Qed.

Lemma deref_insert_same (s : store) (l : loc) (d : dict) :
  l < length s -> deref (<[l := d]> s) l = d.
Proof. intros Hl. unfold deref. by rewrite list_lookup_insert_eq. Qed.

Lemma dict_copy_run (l : loc) (s : store) :
  dict_copy l s = (Ok (length s), s ++ [deref s l]).
Proof. reflexivity. Qed.

Lemma dict_or_run (a b : loc) (s : store) :
  dict_or a b s = (Ok (length s), s ++ [deref s b ∪ deref s a]).
Proof. reflexivity. Qed.

Section unify_extends.

Variable u : Predicate -> Predicate -> loc -> M pyval.
Variable depth : nat.
Hypothesis u_extends : forall t1 t2 l s l' s',
  u t1 t2 l s = (Ok (PyDict l'), s') -> deref s l ⊆ deref s' l'.

(** [unify_variable] returns a dictionary only from its last branch, which
    adds one binding for a name that had none. *)
Lemma unify_variable_with_extends variable term2 theta s l' s' :
  unify_variable_with u depth variable term2 theta s = (Ok (PyDict l'), s') ->
  deref s theta ⊆ deref s' l'.
Proof.
  unfold unify_variable_with, sbind, dict_get, lift, Predicate_copy.
  unfold has_key. destruct (deref s theta !! name variable) eqn:Hv.
  - destruct (getFinalForm depth (name variable) (deref s theta)); discriminate.
  - destruct (deref s theta !! name term2) eqn:Ht.
    + destruct (getFinalForm depth (name term2) (deref s theta)); discriminate.
    + unfold dict_set, sret. intros [= <- <-].
      destruct (decide (theta < length s)) as [Hlt|Hge].
      * rewrite deref_insert_same by done. by apply insert_subseteq.
      * by rewrite list_insert_ge by lia.
Qed.

Lemma unify_inner_extends termOuter inner theta s l' s' :
  unify_inner u termOuter inner theta s = (Ok (PyDict l'), s') ->
  deref s theta ⊆ deref s' l'.
Proof.
  revert theta s. induction inner as [|termInner inner IH]; intros theta s; simpl.
  - by intros [= <- <-].
  - unfold sbind.
    destruct (u termInner termOuter theta s) as [[[|r]| |] s1] eqn:Hu; try discriminate.
    simpl. intros Hrest%IH.
    rewrite deref_app_new in Hrest.
    etrans; [by eapply u_extends|]. etrans; [|exact Hrest].
    apply map_union_subseteq_l.
Qed.

Lemma unify_outer_extends outer inner theta s l' s' :
  unify_outer u outer inner theta s = (Ok (PyDict l'), s') ->
  deref s theta ⊆ deref s' l'.
Proof.
  revert theta s. induction outer as [|termOuter outer IH]; intros theta s; simpl.
  - by intros [= <- <-].
  - unfold sbind.
    destruct (unify_inner u termOuter inner theta s) as [[[|r]| |] s1] eqn:Hin;
      try discriminate.
    intros Hrest%IH. etrans; [by eapply unify_inner_extends|done].
Qed.

Lemma unify_with_extends t1 t2 oldTheta s l' s' :
  unify_with u depth t1 t2 oldTheta s = (Ok (PyDict l'), s') ->
  deref s oldTheta ⊆ deref s' l'.
Proof.
  unfold unify_with. unfold sbind at 1. rewrite dict_copy_run.
  pose proof (deref_app_new s (deref s oldTheta)) as Hcopy.
  set (s1 := s ++ [deref s oldTheta]) in *. set (theta := length s) in *.
  assert (Hvar : forall v t,
    sbind (unify_variable_with u depth v t theta)
      (fun uni_var_res => match uni_var_res with
         | PyDict _ => sbind (dict_or_val theta uni_var_res) (fun r => sret (PyDict r))
         | PyNone => sret PyNone
         end) s1 = (Ok (PyDict l'), s') ->
    deref s oldTheta ⊆ deref s' l').
  { intros v t. unfold sbind.
    destruct (unify_variable_with u depth v t theta s1) as [[[|r]| |] s2] eqn:Hv;
      try discriminate.
    simpl. unfold sret. intros [= <- <-].
    rewrite deref_app_new. apply unify_variable_with_extends in Hv.
    rewrite <- Hcopy. etrans; [exact Hv|]. apply map_union_subseteq_l. }
  destruct (Predicate_eq t1 t2).
  { unfold sret. intros [= <- <-]. by rewrite Hcopy. }
  destruct (ptype_eqb (type t1) VARIABLE_TYPE); [apply Hvar|].
  destruct (ptype_eqb (type t2) VARIABLE_TYPE); [apply Hvar|].
  destruct (ptype_eqb (type t2) FUNCTION_TYPE && ptype_eqb (type t1) FUNCTION_TYPE);
    [|discriminate].
  unfold sbind, name_before_paren.
  destruct (Str.index "(" (name t1)); [|discriminate].
  destruct (Str.index "(" (name t2)); [|discriminate].
  simpl. destruct (negb _); [discriminate|].
  intros Hout%unify_outer_extends. by rewrite <- Hcopy.
Qed.

End unify_extends.

Lemma unify_extends_store (fuel : nat) (t1 t2 : Predicate) (oldTheta : loc)
    (s : store) (l' : loc) (s' : store) :
  unify fuel t1 t2 oldTheta s = (Ok (PyDict l'), s') ->
  deref s oldTheta ⊆ deref s' l'.
Proof.
  revert t1 t2 oldTheta s l' s'.
  induction fuel as [|fuel IH]; intros t1 t2 oldTheta s l' s'; simpl; [discriminate|].
  by apply unify_with_extends.
Qed.

(** X1: a substitution [unify] returns holds every binding of the
    substitution it was given, with the same value: bindings are added,
    never dropped or changed. *)
Theorem unify_keeps_bindings (fuel : nat) (t1 t2 : Predicate) (theta theta' : dict) :
  unify_on fuel t1 t2 theta = Ok (Some theta') ->
  theta ⊆ theta'.
Proof.
  unfold unify_on, result_of.
  destruct (unify fuel t1 t2 0 [theta]) as [[[|l']| |] s'] eqn:Hrun; try discriminate.
  simpl. intros [= <-]. by apply unify_extends_store in Hrun.
Qed.

Lemma unify_keeps_bindings_witness :
  ({[ "x"%string := "a"%string ]} : dict)
  ⊆ <["y"%string := "b"%string]> {[ "x"%string := "a"%string ]}.
Proof.
  apply (unify_keeps_bindings 2 y_ b_). vm_compute. reflexivity.
Defined.

(** ** The dictionary unify returns is a new object *)

Section unify_new.

Variable u : Predicate -> Predicate -> loc -> M pyval.
Variable depth n : nat.
Hypothesis u_new : forall t1 t2 l, stable n (u t1 t2 l) (new_dict n).

Lemma unify_variable_with_new variable term2 theta :
  n <= theta ->
  stable n (unify_variable_with u depth variable term2 theta) (new_dict n).
Proof.
  intros Htheta. unfold unify_variable_with.
  apply stable_bind with (Q := fun _ => True); [apply stable_dict_get|].
  intros d _.
  destruct (has_key (name variable) d); [|destruct (has_key (name term2) d)].
  - apply stable_bind with (Q := fun _ => True); [apply stable_lift|]. intros ? _.
    apply stable_bind with (Q := fun _ => True); [apply stable_lift|]. intros ? _.
    eapply stable_bind; [apply u_new|]. intros ? _.
    eapply stable_bind; [apply stable_dict_or_val|]. intros ? ?.
    by apply stable_ret.
  - apply stable_bind with (Q := fun _ => True); [apply stable_lift|]. intros ? _.
    apply stable_bind with (Q := fun _ => True); [apply stable_lift|]. intros ? _.
    eapply stable_bind; [apply u_new|]. intros ? _.
    eapply stable_bind; [apply stable_dict_or_val|]. intros ? ?.
    by apply stable_ret.
  - apply stable_bind with (Q := fun _ => True); [by apply stable_dict_set|].
    intros ? _. by apply stable_ret.
Qed.

Lemma unify_inner_new termOuter inner theta :
  n <= theta -> stable n (unify_inner u termOuter inner theta) (new_dict n).
Proof.
  revert theta. induction inner as [|termInner inner IH]; intros theta Htheta; simpl.
  - by apply stable_ret.
  - eapply stable_bind; [apply u_new|].
    intros [|r] _; [by apply stable_ret|].
    eapply stable_bind; [apply stable_dict_or_val|]. intros ? ?. by apply IH.
Qed.

Lemma unify_outer_new outer inner theta :
  n <= theta -> stable n (unify_outer u outer inner theta) (new_dict n).
Proof.
  revert theta. induction outer as [|termOuter outer IH]; intros theta Htheta; simpl.
  - by apply stable_ret.
  - eapply stable_bind; [by apply unify_inner_new|].
    intros [|r] Hr; [by apply stable_ret|by apply IH].
Qed.

Lemma unify_with_new t1 t2 oldTheta :
  stable n (unify_with u depth t1 t2 oldTheta) (new_dict n).
Proof.
  unfold unify_with.
  eapply stable_bind; [apply stable_dict_copy|]. intros theta Htheta.
  destruct (Predicate_eq t1 t2); [by apply stable_ret|].
  destruct (ptype_eqb (type t1) VARIABLE_TYPE);
    [|destruct (ptype_eqb (type t2) VARIABLE_TYPE);
      [|destruct (ptype_eqb (type t2) FUNCTION_TYPE && ptype_eqb (type t1) FUNCTION_TYPE)]].
  - eapply stable_bind; [by apply unify_variable_with_new|].
    intros [|r] _; [by apply stable_ret|].
    eapply stable_bind; [apply stable_dict_or_val|]. intros ? ?. by apply stable_ret.
  - eapply stable_bind; [by apply unify_variable_with_new|].
    intros [|r] _; [by apply stable_ret|].
    eapply stable_bind; [apply stable_dict_or_val|]. intros ? ?. by apply stable_ret.
  - assert (Hname : forall w, stable n (name_before_paren w) (fun _ => True)).
    { intros w. unfold name_before_paren.
      destruct (Str.index "(" w); [by apply stable_ret|apply stable_raise]. }
    apply stable_bind with (Q := fun _ => True); [apply Hname|]. intros n1 _.
    apply stable_bind with (Q := fun _ => True); [apply Hname|]. intros n2 _.
    destruct (negb (String.eqb n1 n2)); [by apply stable_ret|].
    by apply unify_outer_new.
  - by apply stable_ret.
Qed.

End unify_new.

Lemma unify_new (fuel n : nat) (t1 t2 : Predicate) (oldTheta : loc) :
  stable n (unify fuel t1 t2 oldTheta) (new_dict n).
Proof.
  revert t1 t2 oldTheta. induction fuel as [|fuel IH]; intros t1 t2 oldTheta; simpl.
  - apply stable_out_of_fuel.
  - by apply unify_with_new.
Qed.

(** X2: a dictionary [unify] returns is an object created during the call:
    it is none of the dictionaries that existed before, so never the
    caller's [oldTheta] itself, even when no binding was added. *)
Theorem unify_returns_new_object (fuel : nat) (t1 t2 : Predicate)
    (oldTheta : loc) (s : store) (l' : loc) (s' : store) :
  unify fuel t1 t2 oldTheta s = (Ok (PyDict l'), s') ->
  length s <= l' /\ forall l d, s !! l = Some d -> l <> l'.
Proof.
  intros Hrun.
  destruct (unify_new fuel (length s) t1 t2 oldTheta s) as (_ & _ & Hnew); [done|].
  rewrite Hrun in Hnew. specialize (Hnew _ eq_refl). simpl in Hnew.
  split; [done|]. intros l d Hl%lookup_lt_Some. lia.
Qed.

Lemma unify_returns_new_object_witness :
  1 <= 1 /\ forall l d, [ (∅ : dict) ] !! l = Some d -> l <> 1.
Proof.
  apply (unify_returns_new_object 1 a_ a_ 0 [∅] 1 [∅; ∅]). reflexivity.
Defined.

(** ** Terms with a name that has a binding *)

Lemma getFinalForm_Ok_or_out (fuel : nat) (v : string) (theta : dict) :
  (exists r, getFinalForm fuel v theta = Ok r) \/ getFinalForm fuel v theta = OutOfFuel.
Proof.
  destruct (getFinalForm fuel v theta) as [r|e|] eqn:Hf; eauto.
  by apply getFinalForm_no_exception in Hf.
Qed.

Lemma sbind_raise {A B} (m : M A) (f : A -> M B) s e s' :
  m s = (Raise e, s') -> sbind m f s = (Raise e, s').
Proof. unfold sbind. by intros ->. Qed.

Lemma sbind_out_of_fuel {A B} (m : M A) (f : A -> M B) s s' :
  m s = (OutOfFuel, s') -> sbind m f s = (OutOfFuel, s').
Proof. unfold sbind. by intros ->. Qed.

(** [unify_variable] with a bound name: the lookup, then [__copy__]. *)
Lemma unify_variable_with_bound u depth v t theta s :
  is_Some (deref s theta !! name v) \/ is_Some (deref s theta !! name t) ->
  unify_variable_with u depth v t theta s = (Raise TypeError, s)
  \/ unify_variable_with u depth v t theta s = (OutOfFuel, s).
Proof.
  intros Hb. unfold unify_variable_with, sbind, dict_get, lift, has_key.
  destruct (deref s theta !! name v) as [w|] eqn:Hv.
  - destruct (getFinalForm_Ok_or_out depth (name v) (deref s theta)) as [[r ->]| ->];
      auto.
  - destruct Hb as [[? ?]|[w Hw]]; [done|]. rewrite Hw.
    destruct (getFinalForm_Ok_or_out depth (name t) (deref s theta)) as [[r ->]| ->];
      auto.
Qed.

(** [unify_variable] with a bound name whose lookup returns: [__copy__] is
    called next, and raises. *)
Lemma unify_variable_with_bound_raises u depth v t theta s :
  is_Some (deref s theta !! name v) \/ is_Some (deref s theta !! name t) ->
  (forall n, n = name v \/ n = name t -> is_Some (deref s theta !! n) ->
     exists r, getFinalForm depth n (deref s theta) = Ok r) ->
  unify_variable_with u depth v t theta s = (Raise TypeError, s).
Proof.
  intros Hb Hret. unfold unify_variable_with, sbind, dict_get, lift, has_key.
  destruct (deref s theta !! name v) as [w|] eqn:Hv.
  - destruct (Hret (name v)) as [r Hr]; [auto|by rewrite Hv|]. by rewrite Hr.
  - destruct Hb as [[? ?]|[w Hw]]; [done|]. rewrite Hw.
    destruct (Hret (name t)) as [r Hr]; [auto|by rewrite Hw|]. by rewrite Hr.
Qed.

(** X3: when one of two unequal terms is a variable and the name of either
    term has a binding in the substitution, [unify] raises [TypeError] (from
    [__copy__]) once the lookup of a bound name returns: if [getFinalForm]
    returns within call depth [fuel] for each of the two names that has a
    binding, [unify] with call depth [S fuel] raises. *)
Theorem unify_with_bound_name (fuel : nat) (t1 t2 : Predicate) (theta : dict) :
  Predicate_eq t1 t2 = false ->
  type t1 = VARIABLE_TYPE \/ type t2 = VARIABLE_TYPE ->
  is_Some (theta !! name t1) \/ is_Some (theta !! name t2) ->
  (forall n, n = name t1 \/ n = name t2 -> is_Some (theta !! n) ->
     exists r, getFinalForm fuel n theta = Ok r) ->
  unify_on (S fuel) t1 t2 theta = Raise TypeError.
Proof.
  intros Hne Hvar Hbound Hret.
  unfold unify_on. remember (unify (S fuel) t1 t2 0 [theta]) as run eqn:Hrun.
  simpl in Hrun. unfold unify_with in Hrun. unfold sbind at 1 in Hrun.
  rewrite dict_copy_run in Hrun. lazy beta iota in Hrun. rewrite Hne in Hrun.
  assert (Hcopy : deref ([theta] ++ [deref [theta] 0]) (length [theta]) = theta)
    by reflexivity.
  destruct (ptype_eqb (type t1) VARIABLE_TYPE) eqn:H1.
  - assert (H : unify_variable_with (unify fuel) fuel t1 t2 (length [theta])
                  ([theta] ++ [deref [theta] 0])
                = (Raise TypeError, [theta] ++ [deref [theta] 0])).
    { apply unify_variable_with_bound_raises; rewrite Hcopy; [done|].
      intros n Hn. by apply Hret. }
    erewrite sbind_raise in Hrun by exact H. by subst run.
  - destruct Hvar as [Hvar|Hvar]; [by rewrite Hvar in H1|].
    rewrite Hvar in Hrun. lazy beta iota delta [ptype_eqb] in Hrun.
    assert (H : unify_variable_with (unify fuel) fuel t2 t1 (length [theta])
                  ([theta] ++ [deref [theta] 0])
                = (Raise TypeError, [theta] ++ [deref [theta] 0])).
    { apply unify_variable_with_bound_raises; rewrite Hcopy; [tauto|].
      intros n Hn. apply Hret. tauto. }
    erewrite sbind_raise in Hrun by exact H. by subst run.
Qed.

(** Unifying the constant a with the variable x bound to b: the lookup of x
    returns b, and the call raises. *)
Lemma unify_with_bound_name_witness :
  unify_on 3 a_ x_ {[ "x"%string := "b"%string ]} = Raise TypeError.
Proof.
  apply (unify_with_bound_name 2 a_ x_ {[ "x"%string := "b"%string ]}).
  - reflexivity.
  - right. reflexivity.
  - right. exists "b"%string. reflexivity.
  - intros n [-> | ->] Hn.
    + destruct Hn as [w Hw]. vm_compute in Hw. discriminate.
    + exists "b"%string. vm_compute. reflexivity.
Defined.

(** ** unify_predicates and the numbers of arguments *)

(** The loop of [unify_predicates] over two runs of indices, one after the
    other. *)
Lemma unify_predicates_loop_app (fuel : nat) (p1 p2 : Predicate)
    (is1 is2 : list nat) (l : loc) (s : store) :
  unify_predicates_loop fuel p1 p2 (is1 ++ is2) l s
  = sbind (unify_predicates_loop fuel p1 p2 is1 l)
          (fun v => match v with
                    | PyNone => sret PyNone
                    | PyDict l' => unify_predicates_loop fuel p1 p2 is2 l'
                    end) s.
Proof.
  revert l s. induction is1 as [|i is1 IH]; intros l s; simpl; [done|].
  destruct (terms p1 !! i) as [a|]; [|done].
  destruct (terms p2 !! i) as [b|]; [|done].
  unfold sbind at 1 3 4. destruct (unify fuel a b l s) as [[[|t]| |] s1]; try done.
  unfold sbind. rewrite !dict_or_run. by rewrite IH.
Qed.

(** The arguments of the first literal at the indices the loop does not
    reach are not looked at. *)
Lemma unify_predicates_loop_cut (fuel : nat) (p1 p2 : Predicate) (n : nat)
    (indices : list nat) (l : loc) (s : store) :
  Forall (fun i => i < n) indices ->
  unify_predicates_loop fuel p1 p2 indices l s
  = unify_predicates_loop fuel (with_terms p1 (take n (terms p1))) p2 indices l s.
Proof.
  intros Hall. revert l s.
  induction Hall as [|i indices Hi Hall IH]; intros l s; simpl; [done|].
  rewrite lookup_take_lt by done.
  destruct (terms p1 !! i) as [a|]; [|done].
  destruct (terms p2 !! i) as [b|]; [|done].
  unfold sbind. destruct (unify fuel a b l s) as [[[|t]| |] s1]; try done.
  rewrite dict_or_run. apply IH.
Qed.

(** X4: when the second literal has fewer arguments than the first,
    [unify_predicates] runs as on the first literal cut down to the number
    of arguments of the second, except that where this run returns a
    substitution, [IndexError] is raised (by [p2.terms[i]] at the first
    missing argument): the call returns [None] or ends in an exception, the
    one of the cut-down run if it has one. *)
Theorem unify_predicates_missing_argument (fuel : nat) (p1 p2 : Predicate)
    (s : store) :
  length (terms p2) < length (terms p1) ->
  unify_predicates fuel p1 p2 s
  = sbind (unify_predicates fuel
             (with_terms p1 (take (length (terms p2)) (terms p1))) p2)
          (fun v => match v with
                    | PyNone => sret PyNone
                    | PyDict _ => sraise IndexError
                    end) s.
Proof.
  intros Hlen. unfold unify_predicates, sbind. simpl.
  rewrite length_take, Nat.min_l by lia.
  replace (length (terms p1))
    with (length (terms p2) + (length (terms p1) - length (terms p2))) at 1 by lia.
  rewrite seq_app, unify_predicates_loop_app. simpl.
  rewrite <- unify_predicates_loop_cut
    by (apply Forall_forall; intros i Hi%list_elem_of_In%in_seq; lia).
  unfold sbind.
  destruct (unify_predicates_loop fuel p1 p2 (seq 0 (length (terms p2)))
              (length s) (s ++ [∅])) as [[[|l']| |] s1]; try done.
  destruct (length (terms p1) - length (terms p2)) as [|k] eqn:Hk; [lia|]. simpl.
  destruct (lookup_lt_is_Some_2 (terms p1) (length (terms p2)) Hlen) as [a ->].
  by rewrite (proj2 (lookup_ge_None (terms p2) (length (terms p2)))) by lia.
Qed.

(** P(a,b) against !P(a): the argument a unifies with a, and the missing
    second argument raises. *)
Lemma unify_predicates_missing_argument_witness :
  unify_predicates_on 3 P_ab notP_a = Raise IndexError.
Proof.
  unfold unify_predicates_on.
  rewrite (unify_predicates_missing_argument 3 P_ab notP_a []) by (simpl; lia).
  vm_compute. reflexivity.
Defined.

(** P(x,x,y) against !P(a,b): the run on the first two arguments raises
    before the missing third one is reached. *)
Lemma unify_predicates_exception_before_missing_argument :
  unify_predicates_on 3 (Literal "P" false [x_; x_; y_]) notP_ab = Raise TypeError.
Proof. vm_compute. reflexivity. Qed.

Lemma unify_predicates_loop_surplus (fuel : nat) (p1 p2 : Predicate) (n : nat)
    (indices : list nat) (l : loc) (s : store) :
  Forall (fun i => i < n) indices ->
  unify_predicates_loop fuel p1 p2 indices l s
  = unify_predicates_loop fuel p1 (with_terms p2 (take n (terms p2))) indices l s.
Proof.
  intros Hall. revert l s.
  induction Hall as [|i indices Hi Hall IH]; intros l s; simpl; [done|].
  rewrite lookup_take_lt by done.
  destruct (terms p1 !! i) as [a|]; [|done].
  destruct (terms p2 !! i) as [b|]; [|done].
  unfold sbind. destruct (unify fuel a b l s) as [[[|t]| |] s1]; try done.
  rewrite dict_or_run. apply IH.
Qed.

(** X5: the arguments of the second literal beyond the number of arguments
    of the first are never looked at: [unify_predicates] gives the same
    result, and leaves the same dictionaries, with these arguments cut
    off. *)
Theorem unify_predicates_ignores_surplus (fuel : nat) (p1 p2 : Predicate) (s : store) :
  unify_predicates fuel p1 p2 s
  = unify_predicates fuel p1
      (with_terms p2 (take (length (terms p1)) (terms p2))) s.
Proof.
  unfold unify_predicates, sbind. simpl.
  apply unify_predicates_loop_surplus.
  apply Forall_forall. intros i Hi%list_elem_of_In%in_seq. lia.
Qed.

(** ** Unifying a variable with a constant, then applying the result *)

Lemma replace_variable_type (x a : string) (t : Predicate) :
  type (replace_variable x a t) = type t.
Proof. by destruct t. Qed.

Section replace.

Variables (variables constants : gset string).
Variable depth : nat.
Variables (x a : string).
Hypothesis a_constant : a ∈ constants.
Hypothesis x_not_a : x <> a.

Lemma getFinalForm_of_bound :
  getFinalForm (S (S depth)) x {[ x := a ]} = Ok a.
Proof.
  simpl. rewrite lookup_singleton_eq. by rewrite lookup_singleton_ne.
Qed.

Lemma final_terms_replace ts :
  Forall (fun t =>
    getFinalPredicate variables constants (S (S depth)) t {[ x := a ]}
    = getFinalPredicate variables constants (S (S depth))
        (replace_variable x a t) {[ x := a ]}) ts ->
  final_terms variables constants (S (S depth)) {[ x := a ]} ts
  = final_terms variables constants (S (S depth)) {[ x := a ]}
      (map (fun arg =>
              match type arg with
              | VARIABLE_TYPE => if String.eqb (name arg) x then Constant a else arg
              | FUNCTION_TYPE => replace_variable x a arg
              | _ => arg
              end) ts).
Proof.
  induction 1 as [|term rest Hterm Hrest IH]; [done|].
  cbn [map final_terms]. destruct (type term) eqn:Hty.
  - rewrite replace_variable_type, Hty, <- Hterm, IH. done.
  - destruct (String.eqb_spec (name term) x) as [Hx|Hx].
    + cbn [type Constant]. rewrite Hx, getFinalForm_of_bound. cbn [obind].
      unfold term_of_final_form. rewrite bool_decide_eq_true_2 by done.
      cbn [obind]. by rewrite IH.
    + rewrite Hty, IH. done.
  - rewrite Hty. apply IH.
  - rewrite Hty, IH. done.
Qed.

Lemma getFinalPredicate_replace p :
  getFinalPredicate variables constants (S (S depth)) p {[ x := a ]}
  = getFinalPredicate variables constants (S (S depth))
      (replace_variable x a p) {[ x := a ]}.
Proof.
  induction p as [n neg ts ty tag IH] using Predicate_ind'.
  cbn [replace_variable]. rewrite !getFinalPredicate_unfold.
  by rewrite <- final_terms_replace.
Qed.

End replace.

(** X6: unifying a variable with a declared constant of another name, from
    the empty substitution, gives the substitution binding the variable to
    the constant; and applying that substitution to a literal or term gives
    the same result as applying it after writing the constant for the
    variable: the two sides become identical. *)
Theorem unify_variable_constant_then_apply (variables constants : gset string)
    (fuel depth : nat) (x a : string) (p : Predicate) :
  a ∈ constants ->
  x <> a ->
  unify_on (S fuel) (Variable_ x) (Constant a) ∅ = Ok (Some {[ x := a ]})
  /\ getFinalPredicate variables constants (S (S depth)) p {[ x := a ]}
     = getFinalPredicate variables constants (S (S depth))
         (replace_variable x a p) {[ x := a ]}.
Proof.
  intros Ha Hxa. split; [|by apply getFinalPredicate_replace].
  unfold unify_on, unify; fold unify.
  unfold unify_with, unify_variable_with, sbind, dict_copy, dict_get, dict_new,
    dict_set, dict_or_val, dict_or, sret, sbind, has_key, deref, Predicate_eq; simpl.
  rewrite andb_false_r. simpl. rewrite !lookup_empty. simpl.
  f_equal. f_equal. rewrite map_union_idemp. apply insert_empty.
Qed.

Lemma unify_variable_constant_then_apply_witness :
  unify_on 2 (Variable_ "x") (Constant "a") ∅
  = Ok (Some {[ "x"%string := "a"%string ]})
  /\ getFinalPredicate vars_xy consts_ab 2
       (Literal "P" false [x_; Function "f(x,y)" "f" [x_; y_]])
       {[ "x"%string := "a"%string ]}
     = getFinalPredicate vars_xy consts_ab 2
         (replace_variable "x" "a"
            (Literal "P" false [x_; Function "f(x,y)" "f" [x_; y_]]))
         {[ "x"%string := "a"%string ]}.
Proof.
  apply (unify_variable_constant_then_apply vars_xy consts_ab 1 0 "x" "a").
  - apply (bool_decide_unpack ("a"%string ∈ consts_ab)). vm_compute. exact I.
  - discriminate.
Defined.

(** ** Equality and hashing *)

(** X7: [Predicate.__eq__] and [Clause.__eq__] are equivalence relations:
    reflexive, symmetric and transitive, as membership in a set needs. *)
Theorem eq_methods_are_equivalences :
  ((forall p, Predicate_eq p p = true)
   /\ (forall p q, Predicate_eq p q = Predicate_eq q p)
   /\ (forall p q r, Predicate_eq p q = true -> Predicate_eq q r = true ->
                     Predicate_eq p r = true))
  /\ ((forall c, Clause_eq c c = true)
      /\ (forall c1 c2, Clause_eq c1 c2 = Clause_eq c2 c1)
      /\ (forall c1 c2 c3, Clause_eq c1 c2 = true -> Clause_eq c2 c3 = true ->
                           Clause_eq c1 c3 = true)).
Proof.
  split; repeat split.
  - apply Predicate_eq_refl.
  - apply Predicate_eq_sym.
  - apply Predicate_eq_trans.
  - apply Clause_eq_refl.
  - apply Clause_eq_sym.
  - apply Clause_eq_trans.
Qed.

(** X8: objects that are equal under [__eq__] have the same [__hash__], for
    predicates and for clauses: a set or dictionary never misses an equal
    element by looking in another bucket. *)
Theorem equal_objects_have_equal_hashes (str_hash : string -> Z) :
  (forall p q, Predicate_eq p q = true ->
               Predicate_hash str_hash p = Predicate_hash str_hash q)
  /\ (forall c1 c2, Clause_eq c1 c2 = true ->
                    Clause_hash str_hash c1 = Clause_hash str_hash c2).
Proof.
  split.
  - intros p q (Hn & _)%Predicate_eq_true. unfold Predicate_hash. by rewrite Hn.
  - intros c1 c2 (Hn & _)%Clause_eq_true. unfold Clause_hash. by rewrite Hn.
Qed.

(** ** What an applied substitution leaves *)

Lemma no_bound_variable_terms theta n neg ts ty tag :
  no_bound_variable theta (mkPredicate n neg ts ty tag)
  <-> Forall (fun a => (type a = VARIABLE_TYPE -> theta !! name a = None)
                       /\ (type a = FUNCTION_TYPE -> no_bound_variable theta a)) ts.
Proof.
  simpl. induction ts as [|a ts IH].
  - split; [constructor|done].
  - rewrite Forall_cons, <- IH. tauto.
Qed.

Section applied.

Variables (variables constants : gset string).
Variable depth : nat.
Variable theta : dict.
Hypothesis no_function : binds_no_function theta.

Lemma final_terms_no_bound_variable ts :
  Forall (fun t => variables_declared variables t -> forall t',
            getFinalPredicate variables constants depth t theta = Ok t' ->
            no_bound_variable theta t') ts ->
  Forall (fun a => (type a = VARIABLE_TYPE -> name a ∈ variables)
                   /\ variables_declared variables a) ts ->
  forall newTerms,
    final_terms variables constants depth theta ts = Ok newTerms ->
    Forall (fun a => (type a = VARIABLE_TYPE -> theta !! name a = None)
                     /\ (type a = FUNCTION_TYPE -> no_bound_variable theta a))
           newTerms.
Proof.
  induction ts as [|term rest IH]; intros Hrec Hdecl newTerms; simpl.
  - intros [= <-]. constructor.
  - apply Forall_cons in Hrec as [Hterm Hrec].
    apply Forall_cons in Hdecl as [[Hvar Hsub] Hdecl].
    specialize (IH Hrec Hdecl).
    destruct (type term) eqn:Hty.
    + destruct (getFinalPredicate variables constants depth term theta)
        as [f| |] eqn:Hf; simpl; [|done..].
      destruct (final_terms variables constants depth theta rest)
        as [new| |] eqn:Hrest; simpl; [|done..].
      intros [= <-]. constructor; [|by apply IH].
      pose proof (getFinalPredicate_type _ _ _ _ _ _ Hf) as Hft.
      split; [congruence|]. intros _. by apply Hterm.
    + destruct (getFinalForm depth (name term) theta) as [ff| |] eqn:Hff;
        simpl; [|done..].
      destruct (getFinalForm_result _ _ _ _ Hff) as [Hnone Hfrom].
      unfold term_of_final_form.
      destruct (bool_decide (ff ∈ constants)) eqn:Hc; simpl.
      * destruct (final_terms variables constants depth theta rest)
          as [new| |] eqn:Hrest; simpl; [|done..].
        intros [= <-]. constructor; [|by apply IH]. by split.
      * destruct (bool_decide (ff ∈ variables)) eqn:Hv; simpl.
        -- destruct (final_terms variables constants depth theta rest)
             as [new| |] eqn:Hrest; simpl; [|done..].
           intros [= <-]. constructor; [|by apply IH]. by split.
        -- destruct Hfrom as [->|[k Hk]].
           ++ apply bool_decide_eq_false in Hv. by destruct Hv; apply Hvar.
           ++ rewrite (no_function _ _ Hk). done.
    + apply IH.
    + destruct (final_terms variables constants depth theta rest)
        as [new| |] eqn:Hrest; simpl; [|done..].
      intros [= <-]. constructor; [|by apply IH]. split; congruence.
Qed.

End applied.

(** X9: a term [getFinalPredicate] returns holds no variable with a binding
    in the substitution, among its arguments and the arguments of its
    function terms at any depth: the substitution is applied in full.  This
    is for a substitution none of whose bound values is the text of a
    function term, and a term whose variables are declared variables. *)
Theorem getFinalPredicate_leaves_no_bound_variable
    (variables constants : gset string) (depth : nat) (theta : dict)
    (p p' : Predicate) :
  binds_no_function theta ->
  variables_declared variables p ->
  getFinalPredicate variables constants depth p theta = Ok p' ->
  no_bound_variable theta p'.
Proof.
  intros Hno. revert p'.
  induction p as [n neg ts ty tag IH] using Predicate_ind'.
  intros p' Hdecl%variables_declared_terms.
  rewrite getFinalPredicate_unfold.
  destruct (final_terms variables constants depth theta ts) as [new| |] eqn:Hts;
    simpl; [|done..].
  intros [= <-]. apply no_bound_variable_terms.
  eapply final_terms_no_bound_variable; [done| |done|done].
  eapply Forall_impl; [exact IH|]. simpl. intros t Ht Hd t'. by apply Ht.
Qed.

Lemma getFinalPredicate_leaves_no_bound_variable_witness :
  no_bound_variable {[ "x"%string := "y"%string ]}
    (mkPredicate "P( y f( y a ) )" false
       [y_; mkPredicate "f( y a )" false [y_; a_] FUNCTION_TYPE "f"]
       PREDICATE_TYPE "P").
Proof.
  apply (getFinalPredicate_leaves_no_bound_variable vars_xy consts_ab 2
           {[ "x"%string := "y"%string ]}
           (Literal "P" false [x_; Function "f(x,a)" "f" [x_; a_]])).
  - apply map_Forall_singleton. reflexivity.
  - simpl. repeat split; intros; try done;
      apply (bool_decide_unpack ("x"%string ∈ vars_xy)); vm_compute; exact I.
  - vm_compute. reflexivity.
Defined.

(** ** What resolve returns *)

Section resolve_output.

Variables (variables constants : gset string).
Variable depth : nat.
Variables (clause1 clause2 : Clause).

(** A pair of literals adds at most one clause to the output. *)
Lemma resolve_pair_output c1_pred c2_pred st st' :
  resolve_pair variables constants depth clause1 clause2 c1_pred c2_pred st = Ok st' ->
  exists added, out_clause st' = out_clause st ++ added /\ length added <= 1.
Proof.
  unfold resolve_pair.
  destruct (_ && _);
    [|intros [= <-]; exists []; split; [by rewrite app_nil_r|simpl; lia]].
  assert (Hunify :
    obind (unify_predicates_on depth (pred c1_pred) (pred c2_pred))
      (fun pred_uni => match pred_uni with
        | None => Ok st
        | Some pred_uni =>
            obind (combine_name variables constants depth c1_pred
                     (pred_uni ∪ global_unification st) (predicates clause1) []
                     ""%string (next_oid st))
              (fun r1 => let '(output_pred, new_name, fresh) := r1 in
                 obind (combine_name variables constants depth c2_pred
                          (pred_uni ∪ global_unification st) (predicates clause2)
                          output_pred new_name fresh)
                   (fun r2 => let '(output_pred0, new_name0, fresh0) := r2 in
                      Ok (mkRS (pred_uni ∪ global_unification st)
                               (out_clause st
                                ++ [mkClause new_name0 output_pred0]) fresh0)))
        end) = Ok st' ->
    exists added, out_clause st' = out_clause st ++ added /\ length added <= 1).
  { destruct (unify_predicates_on depth (pred c1_pred) (pred c2_pred))
      as [[pred_uni|]| |]; simpl; try done.
    - destruct (combine_name variables constants depth c1_pred _ _ _ _ _)
        as [[[o1 n1] f1]| |]; simpl; try done.
      destruct (combine_name variables constants depth c2_pred _ _ _ _ _)
        as [[[o2 n2] f2]| |]; simpl; try done.
      intros [= <-]. simpl. eexists. split; [done|]. simpl. lia.
    - intros [= <-]. exists []. split; [by rewrite app_nil_r|simpl; lia]. }
  destruct (terms (pred c1_pred)) as [|t1 ts1]; [|exact Hunify].
  destruct (terms (pred c2_pred)) as [|t2 ts2]; [|exact Hunify].
  destruct (combine_is c1_pred (predicates clause1) [] "") as [o1 n1].
  destruct (combine_is c2_pred (predicates clause2) o1 n1) as [o2 n2].
  intros [= <-]. simpl. eexists. split; [done|]. simpl. lia.
Qed.

Lemma resolve_inner_output c1_pred ps2 st st' :
  resolve_inner variables constants depth clause1 clause2 c1_pred ps2 st = Ok st' ->
  exists added, out_clause st' = out_clause st ++ added
                /\ length added <= length ps2.
Proof.
  revert st. induction ps2 as [|c2_pred ps2 IH]; intros st; simpl.
  - intros [= <-]. exists []. split; [by rewrite app_nil_r|simpl; lia].
  - destruct (resolve_pair variables constants depth clause1 clause2
                           c1_pred c2_pred st) as [st1| |] eqn:Hpair;
      simpl; [|done..].
    apply resolve_pair_output in Hpair as (a1 & Ha1 & Hl1).
    intros (a2 & Ha2 & Hl2)%IH. exists (a1 ++ a2).
    rewrite Ha2, Ha1, length_app, app_assoc. split; [done|lia].
Qed.

Lemma resolve_outer_output ps1 st st' :
  resolve_outer variables constants depth clause1 clause2 ps1 st = Ok st' ->
  exists added, out_clause st' = out_clause st ++ added
                /\ length added <= length ps1 * length (predicates clause2).
Proof.
  revert st. induction ps1 as [|c1_pred ps1 IH]; intros st; simpl.
  - intros [= <-]. exists []. split; [by rewrite app_nil_r|simpl; lia].
  - destruct (resolve_inner variables constants depth clause1 clause2
                            c1_pred (predicates clause2) st) as [st1| |] eqn:Hin;
      simpl; [|done..].
    apply resolve_inner_output in Hin as (a1 & Ha1 & Hl1).
    intros (a2 & Ha2 & Hl2)%IH. exists (a1 ++ a2).
    rewrite Ha2, Ha1, length_app, app_assoc. split; [done|lia].
Qed.

(** A pair of literals that is not complementary changes nothing. *)
Lemma resolve_pair_skip c1_pred c2_pred st :
  complementary (pred c1_pred) (pred c2_pred) = false ->
  resolve_pair variables constants depth clause1 clause2 c1_pred c2_pred st = Ok st.
Proof. unfold resolve_pair, complementary. by intros ->. Qed.

Lemma resolve_inner_skip c1_pred ps2 st :
  (forall q, In q ps2 -> complementary (pred c1_pred) (pred q) = false) ->
  resolve_inner variables constants depth clause1 clause2 c1_pred ps2 st = Ok st.
Proof.
  induction ps2 as [|c2_pred ps2 IH]; intros Hno; simpl; [done|].
  rewrite resolve_pair_skip by (apply Hno; by left). simpl.
  apply IH. intros q Hq. apply Hno. by right.
Qed.

Lemma resolve_outer_skip ps1 st :
  (forall p q, In p ps1 -> In q (predicates clause2) ->
               complementary (pred p) (pred q) = false) ->
  resolve_outer variables constants depth clause1 clause2 ps1 st = Ok st.
Proof.
  induction ps1 as [|c1_pred ps1 IH]; intros Hno; simpl; [done|].
  rewrite resolve_inner_skip by (intros q Hq; apply Hno; [by left|done]). simpl.
  apply IH. intros p q Hp Hq. apply Hno; [by right|done].
Qed.

End resolve_output.

(** X10: whenever [resolve] returns, its list ends with the two parent
    clauses, in the order given, and before them holds at most one resolvent
    for each pair of a literal of the first clause and a literal of the
    second. *)
Theorem resolve_returns_parents_last (variables constants : gset string)
    (depth : nat) (clause1 clause2 : Clause) (fresh : nat)
    (rs : list Clause) (fresh' : nat) :
  resolve variables constants depth clause1 clause2 fresh = Ok (rs, fresh') ->
  exists resolvents,
    rs = resolvents ++ [clause1; clause2]
    /\ length resolvents
       <= length (predicates clause1) * length (predicates clause2).
Proof.
  unfold resolve.
  destruct (resolve_outer variables constants depth clause1 clause2
              (predicates clause1) (mkRS ∅ [] fresh)) as [st| |] eqn:Hout;
    simpl; [|done..].
  intros [= <- <-].
  apply resolve_outer_output in Hout as (added & Hadd & Hlen). simpl in Hadd.
  exists added. by rewrite Hadd.
Qed.

Lemma resolve_returns_parents_last_witness :
  exists resolvents,
    [mkClause "" []; clause_Px_Pb; clause_notPa]
    = resolvents ++ [clause_Px_Pb; clause_notPa]
    /\ length resolvents
       <= length (predicates clause_Px_Pb) * length (predicates clause_notPa).
Proof.
  apply (resolve_returns_parents_last vars_xy consts_ab 1 clause_Px_Pb clause_notPa 3 _ 3).
  vm_compute. reflexivity.
Defined.

(** X11: when no literal of the first clause has the [nameTag] of a literal
    of the second clause with the other negation, [resolve] returns the two
    parents and nothing else, without a call of the unifier, so at any call
    depth and without an exception. *)
Theorem resolve_without_complementary_pair (variables constants : gset string)
    (depth : nat) (clause1 clause2 : Clause) (fresh : nat) :
  (forall p q, In p (predicates clause1) -> In q (predicates clause2) ->
               complementary (pred p) (pred q) = false) ->
  resolve variables constants depth clause1 clause2 fresh
  = Ok ([clause1; clause2], fresh).
Proof.
  intros Hno. unfold resolve. by rewrite resolve_outer_skip.
Qed.

Lemma resolve_without_complementary_pair_witness :
  resolve vars_xy consts_ab 0 clause_Px clause_Qa 3
  = Ok ([clause_Px; clause_Qa], 3).
Proof.
  apply resolve_without_complementary_pair.
  intros p q [<-|[]] [<-|[]]. reflexivity.
Defined.

(** ** Resolving two literals without arguments *)

Lemma combine_is_others (matched : PredObj) (ps output_pred : list PredObj)
    (new_name : string) :
  combine_is matched ps output_pred new_name
  = (output_pred ++ others matched ps, resolvent_name new_name (others matched ps)).
Proof.
  revert output_pred new_name.
  induction ps as [|c ps IH]; intros output_pred new_name; simpl.
  - by rewrite app_nil_r.
  - unfold others. rewrite filter_cons.
    destruct (Nat.eqb (oid c) (oid matched)) eqn:Hc.
    + rewrite decide_False by done. apply IH.
    + rewrite decide_True by done. rewrite IH. unfold others.
      by rewrite <- app_assoc.
Qed.

(** X12: for a complementary pair of literals that both have no arguments,
    the resolvent holds the literal objects of the first parent other than
    the matched object, then those of the second parent other than its
    matched object, in their order and as they are: the literals are matched
    by identity, nothing is substituted, the accumulated substitution stays
    as it was, and the unifier is not called. *)
Theorem resolve_pair_without_arguments (variables constants : gset string)
    (depth : nat) (clause1 clause2 : Clause) (c1_pred c2_pred : PredObj)
    (st : resolve_state) :
  complementary (pred c1_pred) (pred c2_pred) = true ->
  terms (pred c1_pred) = [] ->
  terms (pred c2_pred) = [] ->
  resolve_pair variables constants depth clause1 clause2 c1_pred c2_pred st
  = Ok (mkRS (global_unification st)
             (out_clause st
              ++ [mkClause
                    (resolvent_name ""
                       (others c1_pred (predicates clause1)
                        ++ others c2_pred (predicates clause2)))
                    (others c1_pred (predicates clause1)
                     ++ others c2_pred (predicates clause2))])
             (next_oid st)).
Proof.
  intros Hcomp H1 H2. unfold resolve_pair. unfold complementary in Hcomp.
  rewrite Hcomp, H1, H2. rewrite !combine_is_others. simpl.
  unfold resolvent_name. by rewrite fold_left_app.
Qed.

Lemma resolve_pair_without_arguments_witness :
  resolve_pair vars_xy consts_ab 0 clause_A_A clause_notA
    (mkObj 0 (Literal "A" false [])) (mkObj 2 (Literal "A" true [])) (mkRS ∅ [] 3)
  = Ok (mkRS ∅ [mkClause "A " [mkObj 1 (Literal "A" false [])]] 3).
Proof.
  apply (resolve_pair_without_arguments vars_xy consts_ab 0 clause_A_A clause_notA
           (mkObj 0 (Literal "A" false [])) (mkObj 2 (Literal "A" true []))
           (mkRS ∅ [] 3)); reflexivity.
Defined.

(** ** A round without complementary literals *)

Lemma round_resolvents_parents (variables constants : gset string) (depth : nat)
    (pairs : list (Clause * Clause)) (fresh : nat) :
  (forall c1 c2, In (c1, c2) pairs ->
     forall p q, In p (predicates c1) -> In q (predicates c2) ->
                 complementary (pred p) (pred q) = false) ->
  round_resolvents variables constants depth pairs fresh
  = Ok (flat_map (fun pr => [pr.1; pr.2]) pairs, fresh).
Proof.
  induction pairs as [|[c1 c2] pairs IH]; intros Hno; simpl; [done|].
  unfold resolve. rewrite resolve_outer_skip by (apply Hno; by left). simpl.
  rewrite IH by (intros ? ? ?; apply Hno; by right). done.
Qed.

Lemma round_pairs_In (clause_loop : list Clause) (c1 c2 : Clause) :
  In (c1, c2) (round_pairs clause_loop) -> In c1 clause_loop /\ In c2 clause_loop.
Proof.
  induction clause_loop as [|c later IH]; simpl; [done|].
  intros [Hin|Hin]%in_app_or.
  - apply in_map_iff in Hin as (c' & [= <- <-] & Hc'). auto.
  - destruct (IH Hin). auto.
Qed.

(** X13: a round in which no two clauses listed together have complementary
    literals, and none of them is the empty clause, ends the engine with
    "yes", at any call depth.  So does a working set of fewer than two
    clauses, whatever the clause is. *)
Theorem resolver_yes_without_complementary_pairs
    (variables constants : gset string) (set_order : cset -> list Clause)
    (depth rounds : nat) (current_clauses new_clause : cset) (fresh : nat) :
  issubset new_clause current_clauses = true ->
  (forall c, In c (set_order current_clauses) -> set_mem c current_clauses = true) ->
  (forall c1 c2, In (c1, c2) (round_pairs (set_order current_clauses)) ->
     Clause_eq c1 (mkClause "" []) = false
     /\ Clause_eq c2 (mkClause "" []) = false
     /\ forall p q, In p (predicates c1) -> In q (predicates c2) ->
                    complementary (pred p) (pred q) = false) ->
  resolver_loop variables constants set_order depth (S rounds)
                current_clauses new_clause fresh = Ok Yes.
Proof.
  intros Hsub Hlist Hpairs. simpl. rewrite round_outer_flat.
  set (pairs := round_pairs (set_order current_clauses)) in *.
  set (rs := flat_map (fun pr : Clause * Clause => [pr.1; pr.2]) pairs).
  assert (Hrs : round_resolvents variables constants depth pairs fresh = Ok (rs, fresh)).
  { apply round_resolvents_parents. intros c1 c2 Hin. by apply Hpairs. }
  assert (Hfrom : forall c, In c rs ->
            Clause_eq c (mkClause "" []) = false /\ In c (set_order current_clauses)).
  { intros c ([c1 c2] & Hpr & Hc)%in_flat_map.
    destruct (Hpairs c1 c2 Hpr) as (H1 & H2 & _).
    destruct (round_pairs_In _ _ _ Hpr) as [Hin1 Hin2].
    simpl in Hc. destruct Hc as [<-|[<-|[]]]; auto. }
  assert (Hne : has_empty_clause rs = false).
  { apply not_true_is_false. intros (c & Hc & Heq)%existsb_exists.
    destruct (Hfrom c Hc) as [Hfalse _]. congruence. }
  destruct (round_flat_resolvents variables constants depth pairs new_clause
              fresh rs fresh Hrs) as [_ Hgo].
  destruct (Hgo Hne) as (new' & -> & _ & Hin). simpl.
  assert (issubset new' current_clauses = true) as ->; [|done].
  apply forallb_forall. intros e [He|He]%Hin.
  - apply (issubset_mem new_clause); [done|by apply set_mem_In].
  - apply Hlist. by apply Hfrom.
Qed.

Lemma resolver_yes_without_complementary_pairs_witness :
  resolver_loop vars_xy consts_ab (fun s => s) 0 1 [mkClause "" []] [] 0 = Ok Yes.
Proof.
  apply resolver_yes_without_complementary_pairs.
  - reflexivity.
  - intros c [<-|[]]. reflexivity.
  - intros c1 c2 [].
Defined.


(** ** The terms termParser builds *)

Lemma omap_Forall2 {A B} (f : A -> outcome B) (l : list A) (bs : list B) :
  omap f l = Ok bs -> Forall2 (fun a b => f a = Ok b) l bs.
Proof.
  revert bs. induction l as [|a l IH]; intros bs; simpl.
  - intros [= <-]. constructor.
  - destruct (f a) as [b| |] eqn:Hb; simpl; [|done..].
    destruct (omap f l) as [bs'| |]; simpl; [|done..].
    intros [= <-]. constructor; [done|by apply IH].
Qed.

Lemma split_not_nil (c : ascii) (s : string) : Str.split c s <> [].
Proof.
  destruct s as [|a s]; simpl; [done|].
  destruct (Ascii.eqb a c); [done|]. by destruct (Str.split c s).
Qed.

Lemma parsed_term_function variables constants n neg ts tag :
  parsed_term variables constants (mkPredicate n neg ts FUNCTION_TYPE tag)
  <-> neg = false
      /\ (exists i, Str.index "(" n = Some i /\ tag = Str.take i n)
      /\ ts <> []
      /\ Forall (parsed_term variables constants) ts.
Proof.
  simpl.
  assert (Hall : (fix all (ts : list Predicate) : Prop :=
                    match ts with
                    | [] => True
                    | a :: ts' => parsed_term variables constants a /\ all ts'
                    end) ts <-> Forall (parsed_term variables constants) ts).
  { induction ts as [|a ts IH].
    - split; [constructor|done].
    - rewrite Forall_cons, <- IH. tauto. }
  rewrite Hall. tauto.
Qed.

Lemma termParser_at_parsed (variables constants : gset string)
    (fuel : nat) (term_str : string) (t : Predicate) :
  termParser_at variables constants fuel term_str = Ok t ->
  parsed_term variables constants t /\ name t = Str.strip term_str.
Proof.
  revert term_str t. induction fuel as [|fuel IH]; intros term_str t; [done|].
  simpl. destruct (Str.index "(" (Str.strip term_str)) as [first_paren|] eqn:Hparen.
  - match goal with
    | |- obind (omap ?f ?l) _ = _ -> _ => destruct (omap f l) as [args| |] eqn:Hargs
    end; simpl; [|done..].
    intros [= <-]. split; [|done].
    apply parsed_term_function. split; [done|]. split; [eauto|].
    apply omap_Forall2 in Hargs. split.
    + intros ->. apply Forall2_nil_inv_r in Hargs. by apply split_not_nil in Hargs.
    + clear Hparen. induction Hargs as [|a b l bs Hab _ IHargs]; constructor; [|done].
      by apply IH in Hab as [? _].
  - case_bool_decide as Hv; [intros [= <-]; by repeat split|].
    case_bool_decide as Hc; [intros [= <-]; by repeat split|done].
Qed.

(** X14: a term [termParser] returns is named by the stripped text it was
    given and is built of declared symbols only: it is a declared variable,
    a declared constant that is no declared variable, or a function term
    with at least one argument, whose [nameTag] is the text before the first
    "(" and whose arguments are such terms again. *)
Theorem termParser_builds_declared_terms (variables constants : gset string)
    (term_str : string) (t : Predicate) :
  termParser variables constants term_str = Ok t ->
  parsed_term variables constants t /\ name t = Str.strip term_str.
Proof. unfold termParser. apply termParser_at_parsed. Qed.

Lemma termParser_builds_declared_terms_witness :
  parsed_term vars_xy consts_ab
    (Function "f(x, a)" "f" [x_; a_])
  /\ name (Function "f(x, a)" "f" [x_; a_]) = Str.strip " f(x, a) ".
Proof.
  apply (termParser_builds_declared_terms vars_xy consts_ab " f(x, a) ").
  vm_compute. reflexivity.
Defined.

(** A term of that shape has declared variables only. *)
Lemma parsed_term_variables_declared (variables constants : gset string)
    (t : Predicate) :
  parsed_term variables constants t ->
  (type t = VARIABLE_TYPE -> name t ∈ variables)
  /\ variables_declared variables t.
Proof.
  induction t as [n neg ts ty tag IH] using Predicate_ind'.
  destruct ty.
  - intros (_ & _ & _ & Hargs)%parsed_term_function. split; [done|].
    apply variables_declared_terms.
    induction Hargs as [|a ts Ha Hargs IHargs]; [constructor|].
    apply Forall_cons in IH as [IHa IH]. constructor; [by apply IHa|by apply IHargs].
  - simpl. intros (_ & Hn & _ & -> & _). by split.
  - simpl. intros [_ []].
  - simpl. intros (_ & _ & _ & _ & -> & _). by split.
Qed.

(** ** The input parser *)

Lemma rstrip_idempotent (s : string) : Str.rstrip (Str.rstrip s) = Str.rstrip s.
Proof.
  induction s as [|a s IH]; simpl; [done|].
  destruct (Str.rstrip s) as [|b r] eqn:Hr.
  - destruct (Str.is_space a) eqn:Ha; simpl; [done|]. by rewrite Ha.
  - change (Str.rstrip (String a (String b r))) with
      (match Str.rstrip (String b r) with
       | EmptyString => if Str.is_space a then EmptyString else String a EmptyString
       | r' => String a r'
       end).
    by rewrite IH.
Qed.

Lemma rstrip_strip (s : string) : Str.rstrip (Str.strip s) = Str.strip s.
Proof. apply rstrip_idempotent. Qed.

(** The text before the first "(" holds no "(". *)
Lemma index_slice_before (c : ascii) (s : string) (i j : nat) :
  Str.index c s = Some i -> Str.index c (Str.slice j i s) = None.
Proof.
  unfold Str.slice. revert i j. induction s as [|a s IH]; intros i j; simpl; [done|].
  destruct (Ascii.eqb a c) eqn:Hac.
  - intros [= <-]. simpl. by destruct (Str.drop j (String a s)).
  - destruct (Str.index c s) as [i'|] eqn:Hi; simpl; [|done].
    intros [= <-]. destruct j as [|j]; simpl.
    + rewrite Hac. specialize (IH i' 0 eq_refl).
      rewrite Nat.sub_0_r in IH. replace (Str.drop 0 s) with s in IH by by destruct s.
      by rewrite IH.
    + by apply IH.
Qed.

Lemma parse_literal_parsed (variables constants : gset string)
    (predicate : string) (fresh : nat) (p : PredObj) :
  parse_literal variables constants predicate fresh = Ok p ->
  oid p = fresh /\ parsed_literal variables constants (pred p).
Proof.
  unfold parse_literal, index_paren.
  destruct (negb (Str.contains "(" predicate)).
  - destruct (starts_with_bang (String.append predicate "()")) as [bang| |];
      simpl; [|done..].
    destruct (Str.index "(" (String.append predicate "()")) as [i|] eqn:Hi;
      simpl; [|done].
    destruct bang; intros [= <-]; (split; [done|]);
      repeat split; try done; simpl; by apply index_slice_before.
  - destruct (Str.index "(" predicate) as [i|] eqn:Hi; simpl; [|done].
    match goal with
    | |- obind (omap ?f ?l) _ = _ -> _ => destruct (omap f l) as [args| |] eqn:Hargs
    end; simpl; [|done..].
    assert (Hparsed : Forall (parsed_term variables constants) args).
    { apply omap_Forall2 in Hargs.
      induction Hargs as [|a b l bs Hab _ IH]; constructor; [|done].
      by apply termParser_at_parsed in Hab as [? _]. }
    destruct (starts_with_bang predicate) as [bang| |]; simpl; [|done..].
    destruct bang; intros [= <-]; (split; [done|]);
      repeat split; try done; simpl; by apply index_slice_before.
Qed.

Lemma parse_literals_parsed (variables constants : gset string)
    (sub_clause : list string) (fresh : nat) (ps : list PredObj) (fresh' : nat) :
  parse_literals variables constants sub_clause fresh = Ok (ps, fresh') ->
  Forall (fun p => parsed_literal variables constants (pred p)) ps.
Proof.
  revert fresh ps. induction sub_clause as [|w rest IH]; intros fresh ps; simpl.
  - intros [= <- <-]. constructor.
  - destruct (parse_literal variables constants w fresh) as [p| |] eqn:Hp;
      simpl; [|done..].
    destruct (parse_literals variables constants rest (S fresh))
      as [[ps' f']| |] eqn:Hrest; simpl; [|done..].
    intros [= <- <-]. constructor; [|by eapply IH].
    by apply parse_literal_parsed in Hp as [_ ?].
Qed.

Lemma parse_clauses_parsed (variables constants : gset string)
    (clauses : list string) (fresh : nat) (cl : list Clause) :
  parse_clauses variables constants clauses fresh = Ok cl ->
  map clause_name cl = clauses
  /\ Forall (fun c => Forall (fun p => parsed_literal variables constants (pred p))
                             (predicates c)) cl.
Proof.
  revert fresh cl. induction clauses as [|clause rest IH]; intros fresh cl; simpl.
  - intros [= <-]. by split.
  - destruct (parse_literals variables constants (words clause) fresh)
      as [[ps f']| |] eqn:Hps; simpl; [|done..].
    destruct (parse_clauses variables constants rest f') as [cl'| |] eqn:Hrest;
      simpl; [|done..].
    intros [= <-]. destruct (IH _ _ Hrest) as [Hnames Hall]. simpl. split.
    + by rewrite Hnames.
    + constructor; [|done]. simpl. by eapply parse_literals_parsed.
Qed.

(** X16: [parseInput] needs four lines for the declarations: on a file of
    fewer lines it raises [IndexError], whatever the lines hold. *)
Theorem parseInput_needs_four_lines (file_lines : list string) :
  length file_lines < 4 -> parseInput file_lines = Raise IndexError.
Proof.
  intros Hlen. unfold parseInput.
  destruct file_lines as [|l0 [|l1 [|l2 [|l3 rest]]]]; try reflexivity.
  simpl in Hlen. lia.
Qed.

Lemma parseInput_needs_four_lines_witness :
  parseInput ["Predicates: P"; "Variables: x"; "Constants: a"] = Raise IndexError.
Proof. apply parseInput_needs_four_lines. simpl. lia. Defined.

(** X17: the declared predicates, the declared functions and the fifth line
    have no effect on the parse beyond the two sets returned for them: the
    variables, the constants, the clauses, an exception raised, and with
    them the verdict of the script are the same whatever these three lines
    hold.  No literal or function symbol is checked against a
    declaration. *)
Theorem parseInput_ignores_predicates_and_functions
    (l0 l0' l1 l2 l3 l3' l4 l4' : string) (clause_lines : list string)
    (set_order : cset -> list Clause) (depth rounds : nat) :
  used_of_parse (parseInput (l0 :: l1 :: l2 :: l3 :: l4 :: clause_lines))
  = used_of_parse (parseInput (l0' :: l1 :: l2 :: l3' :: l4' :: clause_lines))
  /\ main set_order depth rounds (l0 :: l1 :: l2 :: l3 :: l4 :: clause_lines)
     = main set_order depth rounds (l0' :: l1 :: l2 :: l3' :: l4' :: clause_lines).
Proof.
  unfold main, used_of_parse, parseInput. cbn [map line_at lookup list_lookup obind drop].
  destruct (parse_clauses _ _ _ 0); by split.
Qed.

(** X18: the clauses [parseInput] returns are one for each line from the
    sixth on, in order, each named by its stripped line; every literal in
    them has type predicate, the same text as [name] and [nameTag], with no
    "(" in it, arguments built of declared symbols, and so only declared
    variables. *)
Theorem parseInput_clauses (file_lines : list string) (r : parsed) :
  parseInput file_lines = Ok r ->
  map clause_name (parsed_clauses r) = drop 5 (map Str.strip file_lines)
  /\ Forall (fun c =>
       Forall (fun p =>
         parsed_literal (parsed_variables r) (parsed_constants r) (pred p)
         /\ variables_declared (parsed_variables r) (pred p))
         (predicates c))
       (parsed_clauses r).
Proof.
  unfold parseInput.
  destruct (line_at (map Str.strip file_lines) 0) as [l0| |]; simpl; [|done..].
  destruct (line_at (map Str.strip file_lines) 1) as [l1| |]; simpl; [|done..].
  destruct (line_at (map Str.strip file_lines) 2) as [l2| |]; simpl; [|done..].
  destruct (line_at (map Str.strip file_lines) 3) as [l3| |]; simpl; [|done..].
  destruct (parse_clauses (declared l1) (declared l2)
              (map Str.rstrip (drop 5 (map Str.strip file_lines))) 0)
    as [cl| |] eqn:Hcl; simpl; [|done..].
  intros [= <-]. simpl. apply parse_clauses_parsed in Hcl as [Hnames Hall]. split.
  - rewrite Hnames, skipn_map, map_map.
    apply map_ext. intros l. apply rstrip_strip.
  - eapply Forall_impl; [exact Hall|]. simpl. intros c Hc.
    eapply Forall_impl; [exact Hc|]. simpl. intros p Hp. split; [done|].
    destruct Hp as (_ & _ & _ & Hargs). destruct (pred p) as [n neg ts ty tag].
    apply variables_declared_terms. simpl in Hargs.
    eapply Forall_impl; [exact Hargs|]. simpl.
    intros a Ha. by eapply parsed_term_variables_declared.
Qed.

Lemma parseInput_clauses_witness :
  map clause_name
      [mkClause "P(x) Q(f(x),a)"
         [mkObj 0 (Literal "P" false [x_]);
          mkObj 1 (Literal "Q" false [Function "f(x)" "f" [x_]; a_])];
       mkClause "!P(a) Q"
         [mkObj 2 (Literal "P" true [a_]); mkObj 3 (Literal "Q" false [])]]
  = drop 5 (map Str.strip file_PQ)
  /\ Forall (fun c =>
       Forall (fun p =>
         parsed_literal (declared "Variables: x y") (declared "Constants: a b") (pred p)
         /\ variables_declared (declared "Variables: x y") (pred p))
         (predicates c))
       [mkClause "P(x) Q(f(x),a)"
         [mkObj 0 (Literal "P" false [x_]);
          mkObj 1 (Literal "Q" false [Function "f(x)" "f" [x_]; a_])];
       mkClause "!P(a) Q"
         [mkObj 2 (Literal "P" true [a_]); mkObj 3 (Literal "Q" false [])]].
Proof.
  apply (parseInput_clauses file_PQ
           (mkParsed (declared "Predicates: P Q") (declared "Variables: x y")
                     (declared "Constants: a b") (declared "Functions: f") _)).
  vm_compute. reflexivity.
Defined.

(** ** Literals without arguments in a clause line *)

Lemma index_append_paren (s t : string) :
  Str.index "(" s = None ->
  Str.index "(" (String.append s (String "(" t)) = Some (String.length s).
Proof.
  induction s as [|a s IH]; simpl; [done|].
  destruct (Ascii.eqb a "(") eqn:Ha; [done|].
  destruct (Str.index "(" s); [done|]. intros _. by rewrite IH.
Qed.

Lemma length_of_append (s t : string) :
  String.length (String.append s t) = String.length s + String.length t.
Proof. induction s as [|a s IH]; simpl; [done|]. by rewrite IH. Qed.

Lemma take_append (s t : string) :
  Str.take (String.length s) (String.append s t) = s.
Proof.
  induction s as [|a s IH]; simpl; [by destruct t|]. by rewrite IH.
Qed.

Lemma words_test : words "  ab  c d " = ["ab"; "c"; "d"]%string.
Proof. reflexivity. Qed.

(** X19: a word of a clause line that holds no "(" stands for a literal
    without arguments, negated when the word starts with "!"; the same word
    followed by an empty pair of parentheses does not parse: [termParser] is
    called on the empty text between them and raises (the empty text being
    no declared symbol). *)
Theorem parse_literal_without_arguments (variables constants : gset string)
    (word : string) (fresh : nat) :
  Str.index "(" word = None ->
  word <> EmptyString ->
  EmptyString ∉ variables ->
  EmptyString ∉ constants ->
  parse_literal variables constants word fresh
  = Ok (mkObj fresh
          (Literal (if leading_bang word then Str.drop 1 word else word)
                   (leading_bang word) []))
  /\ parse_literal variables constants (String.append word "()") fresh
     = Raise BadParse.
Proof.
  intros Hno Hword Hv Hc.
  pose proof (index_append_paren word ")" Hno) as Hi.
  split; unfold parse_literal, Str.contains, index_paren.
  - rewrite Hno. cbn [negb]. rewrite Hi.
    destruct word as [|a w]; [done|].
    change (String.append (String a w) "()") with (String a (String.append w "()")).
    cbn [starts_with_bang obind].
    unfold Literal, leading_bang, Str.slice.
    destruct (Ascii.eqb a "!").
    + cbn [Str.drop String.length]. rewrite Nat.sub_succ, Nat.sub_0_r.
      by rewrite take_append.
    + rewrite Nat.sub_0_r. cbn [Str.drop].
      change (String a (String.append w "()")) with (String.append (String a w) "()").
      by rewrite take_append.
  - rewrite Hi. cbn [negb obind]. rewrite length_of_append.
    replace (String.length word + String.length "()" - 1 - (String.length word + 1))
      with 0 by (simpl; lia).
    unfold Str.slice.
    replace (String.length word + String.length "()" - 1 - (String.length word + 1))
      with 0 by (simpl; lia).
    cbn [Str.take Str.split omap]. unfold termParser. cbn.
    rewrite !bool_decide_eq_false_2 by done. done.
Qed.

Lemma parse_literal_without_arguments_witness :
  parse_literal vars_xy consts_ab "!Q" 7 = Ok (mkObj 7 (Literal "Q" true []))
  /\ parse_literal vars_xy consts_ab "!Q()" 7 = Raise BadParse.
Proof.
  apply (parse_literal_without_arguments vars_xy consts_ab "!Q" 7).
  - reflexivity.
  - discriminate.
  - apply (bool_decide_unpack (EmptyString ∉ vars_xy)). vm_compute. exact I.
  - apply (bool_decide_unpack (EmptyString ∉ consts_ab)). vm_compute. exact I.
Defined.

(** ** The call depth a lookup needs *)

(** A lookup that passes through a bound name goes on from there. *)
Lemma getFinalForm_follows (theta : dict) (k : nat) (v w : string) :
  follows theta k v w ->
  forall fuel r, getFinalForm fuel v theta = Ok r ->
                 is_Some (theta !! w) ->
                 k < fuel /\ getFinalForm (fuel - k) w theta = Ok r.
Proof.
  induction 1 as [v|k v u w Hv Hfol IH]; intros fuel r Hr Hw.
  - destruct fuel; [done|]. split; [lia|]. by rewrite Nat.sub_0_r.
  - destruct fuel as [|fuel]; [done|]. simpl in Hr. rewrite Hv in Hr.
    destruct (IH _ _ Hr Hw) as [Hlt Hrest]. split; [lia|done].
Qed.

(** A name bound to [w] that the lookup of [w] comes back to: the lookup
    returns at no depth. *)
Lemma getFinalForm_back (theta : dict) (k : nat) (v w : string) :
  theta !! v = Some w -> follows theta k w v ->
  forall fuel r, getFinalForm fuel w theta <> Ok r.
Proof.
  intros Hv Hfol fuel. induction fuel as [fuel IH] using lt_wf_ind. intros r Hr.
  destruct (getFinalForm_follows _ _ _ _ Hfol _ _ Hr) as [Hlt Hrest]; [by eexists|].
  destruct (fuel - k) as [|n] eqn:Hn; [done|]. simpl in Hrest. rewrite Hv in Hrest.
  apply (IH n ltac:(lia) r Hrest).
Qed.

(** A binding the lookup never reaches can be deleted. *)
Lemma getFinalForm_delete (theta : dict) (v : string) (fuel : nat) (w : string) :
  (forall k, ~ follows theta k w v) ->
  getFinalForm fuel w (delete v theta) = getFinalForm fuel w theta.
Proof.
  revert w. induction fuel as [|fuel IH]; intros w Hnever; simpl; [done|].
  assert (Hwv : v <> w).
  { intros ->. apply (Hnever 0). constructor. }
  rewrite lookup_delete_ne by done.
  destruct (theta !! w) as [u|] eqn:Hw; [|done].
  apply IH. intros k Hk. apply (Hnever (S k)). by eapply follows_step.
Qed.

Lemma getFinalForm_within_size (n : nat) :
  forall theta : dict, size theta = n ->
  forall fuel v r, getFinalForm fuel v theta = Ok r ->
                   getFinalForm (S n) v theta = Ok r.
Proof.
  induction n as [|n IH]; intros theta Hn fuel v r Hr;
    (destruct fuel as [|fuel]; [done|]);
    simpl in Hr |- *; (destruct (theta !! v) as [w|] eqn:Hv; [|done]);
    assert (Hsize : size theta = S (size (delete v theta)))
      by (rewrite <- (insert_delete_id theta v w Hv) at 1;
          apply map_size_insert_None, lookup_delete_eq).
  - lia.
  - assert (Hnever : forall k, ~ follows theta k w v).
    { intros k Hk. by eapply getFinalForm_back. }
    rewrite <- (getFinalForm_delete theta v) in Hr by done.
    apply (IH (delete v theta) ltac:(lia)) in Hr.
    by rewrite getFinalForm_delete in Hr.
Qed.

(** X20: a lookup that returns at all returns within a call depth of one
    more than the number of bindings of the substitution, and with the same
    name: beyond that depth, more depth never helps. *)
Theorem getFinalForm_depth_bound (theta : dict) (fuel : nat) (v r : string) :
  getFinalForm fuel v theta = Ok r ->
  getFinalForm (S (size theta)) v theta = Ok r.
Proof. by apply getFinalForm_within_size. Qed.

Lemma getFinalForm_depth_bound_witness :
  getFinalForm (S (size ({[ "x"%string := "y"%string; "y"%string := "a"%string ]} : dict)))
               "x" {[ "x"%string := "y"%string; "y"%string := "a"%string ]}
  = Ok "a"%string.
Proof.
  apply (getFinalForm_depth_bound _ 10). vm_compute. reflexivity.
Defined.

(** ** Whitespace around a term *)

Lemma lstrip_fixed (s : string) :
  match s with
  | EmptyString => True
  | String a _ => Str.is_space a = false
  end ->
  Str.lstrip s = s.
Proof. destruct s as [|a s]; simpl; [done|]. by intros ->. Qed.

Lemma lstrip_head (s : string) :
  match Str.lstrip s with
  | EmptyString => True
  | String a _ => Str.is_space a = false
  end.
Proof.
  induction s as [|a s IH]; simpl; [done|].
  destruct (Str.is_space a) eqn:Ha; [done|]. simpl. done.
Qed.

Lemma rstrip_head (s : string) :
  match s with
  | EmptyString => True
  | String a _ => Str.is_space a = false
  end ->
  match Str.rstrip s with
  | EmptyString => True
  | String a _ => Str.is_space a = false
  end.
Proof.
  destruct s as [|a s]; simpl; [done|]. intros Ha.
  destruct (Str.rstrip s); [by rewrite Ha|done].
Qed.

Lemma strip_idempotent (s : string) : Str.strip (Str.strip s) = Str.strip s.
Proof.
  unfold Str.strip.
  rewrite (lstrip_fixed (Str.rstrip (Str.lstrip s)))
    by apply rstrip_head, lstrip_head.
  apply rstrip_idempotent.
Qed.

Lemma omap_ext {A B} (f g : A -> outcome B) (l : list A) :
  (forall x, In x l -> f x = g x) -> omap f l = omap g l.
Proof.
  induction l as [|a l IH]; intros Hfg; simpl; [done|].
  rewrite (Hfg a) by by left. rewrite IH; [done|].
  intros x Hx. apply Hfg. by right.
Qed.

(** With fuel beyond the length of the string, the fuel plays no part. *)
Lemma termParser_at_fuel (variables constants : gset string)
    (n m : nat) (term_str : string) :
  String.length term_str < n -> String.length term_str < m ->
  termParser_at variables constants n term_str
  = termParser_at variables constants m term_str.
Proof.
  revert m term_str. induction n as [|n IH]; intros m term_str Hn Hm; [lia|].
  destruct m as [|m]; [lia|]. simpl.
  pose proof (strip_length term_str) as Hstrip.
  destruct (Str.index "(" (Str.strip term_str)) as [first_paren|] eqn:Hparen;
    [|done].
  apply index_Some_length in Hparen.
  erewrite omap_ext; [done|].
  intros x Hx%split_length. unfold Str.slice in Hx.
  pose proof (take_length_le
    (String.length (Str.strip term_str) - 1 - (first_paren + 1))
    (Str.drop (first_paren + 1) (Str.strip term_str))).
  apply IH; lia.
Qed.

(** X21: whitespace before and after a term's text plays no part:
    [termParser] gives the same term, or the same exception, for a text and
    for the text stripped of it. *)
Theorem termParser_ignores_outer_whitespace (variables constants : gset string)
    (term_str : string) :
  termParser variables constants (Str.strip term_str)
  = termParser variables constants term_str.
Proof.
  unfold termParser. pose proof (strip_length term_str) as Hlen.
  rewrite (termParser_at_fuel variables constants
             (S (String.length (Str.strip term_str)))
             (S (String.length term_str))) by lia.
  simpl. by rewrite strip_idempotent.
Qed.

(** ** A file without clause lines *)

(** X22: for a file that holds the declarations and no clause line (four or
    five lines), the script answers "yes": the working set is empty and the
    first round finds nothing to resolve. *)
Theorem main_without_clauses (set_order : cset -> list Clause)
    (depth rounds : nat) (file_lines : list string) :
  set_order [] = [] ->
  4 <= length file_lines <= 5 ->
  main set_order depth (S rounds) file_lines = Ok Yes.
Proof.
  intros Horder [Hmin Hmax].
  destruct file_lines as [|l0 [|l1 [|l2 [|l3 [|l4 [|l5 rest]]]]]];
    simpl in Hmin, Hmax; try lia;
    unfold main, parseInput, resolver; simpl;
    change (set_of_list []) with ([] : cset); by rewrite Horder.
Qed.

Lemma main_without_clauses_witness :
  main (fun s => s) 0 1
       ["Predicates: P"; "Variables: x"; "Constants: a"; "Functions: f"]
  = Ok Yes.
Proof. apply main_without_clauses; [reflexivity|simpl; lia]. Defined.

(** ** An empty clause in the working set *)

Lemma resolve_holds_parents (variables constants : gset string) (depth : nat)
    (clause1 clause2 : Clause) (fresh : nat) (rs : list Clause) (fresh' : nat) :
  resolve variables constants depth clause1 clause2 fresh = Ok (rs, fresh') ->
  In clause1 rs /\ In clause2 rs.
Proof.
  unfold resolve.
  destruct (resolve_outer variables constants depth clause1 clause2
              (predicates clause1) (mkRS ∅ [] fresh)) as [st| |];
    simpl; [|done..].
  intros [= <- <-]. rewrite !in_app_iff. simpl. auto.
Qed.

Lemma round_resolvents_hold_parents (variables constants : gset string)
    (depth : nat) (pairs : list (Clause * Clause)) (fresh : nat)
    (rs : list Clause) (fresh' : nat) (c1 c2 : Clause) :
  round_resolvents variables constants depth pairs fresh = Ok (rs, fresh') ->
  In (c1, c2) pairs -> In c1 rs /\ In c2 rs.
Proof.
  revert fresh rs. induction pairs as [|[a b] pairs IH]; intros fresh rs; simpl;
    [done|].
  destruct (resolve variables constants depth a b fresh)
    as [[resolvents f1]| |] eqn:Hres; simpl; [|done..].
  destruct (round_resolvents variables constants depth pairs f1)
    as [[more f2]| |] eqn:Hrest; simpl; [|done..].
  intros [= <- <-] [[= <- <-]|Hin]; rewrite !in_app_iff.
  - apply resolve_holds_parents in Hres. tauto.
  - destruct (IH _ _ Hrest Hin). tauto.
Qed.

(** X23: when one of the clauses resolved in a round is the empty clause (the
    clause of a blank clause line), and every pair of the round resolves, the
    engine ends with "no": [resolve] hands its parents back among the
    resolvents, where the empty clause is found. *)
Theorem resolver_no_with_empty_clause (variables constants : gset string)
    (set_order : cset -> list Clause) (depth rounds : nat)
    (current_clauses new_clause : cset) (fresh : nat)
    (rs : list Clause) (fresh' : nat) (c1 c2 : Clause) :
  round_resolvents variables constants depth
                   (round_pairs (set_order current_clauses)) fresh = Ok (rs, fresh') ->
  In (c1, c2) (round_pairs (set_order current_clauses)) ->
  Clause_eq c1 (mkClause "" []) = true \/ Clause_eq c2 (mkClause "" []) = true ->
  resolver_loop variables constants set_order depth (S rounds)
                current_clauses new_clause fresh = Ok No.
Proof.
  intros Hrs Hpair Hempty. simpl. rewrite round_outer_flat.
  destruct (round_flat_resolvents variables constants depth _ new_clause _ _ _ Hrs)
    as [Hexit _].
  rewrite Hexit; [done|].
  destruct (round_resolvents_hold_parents _ _ _ _ _ _ _ _ _ Hrs Hpair) as [H1 H2].
  apply existsb_exists. destruct Hempty as [He|He]; eauto.
Qed.

Lemma resolver_no_with_empty_clause_witness :
  resolver_loop vars_xy consts_ab (fun s => s) 0 1
                [clause_Qa; mkClause "" []] [] 3 = Ok No.
Proof.
  apply (resolver_no_with_empty_clause vars_xy consts_ab (fun s => s) 0 0
           [clause_Qa; mkClause "" []] [] 3
           [clause_Qa; mkClause "" []] 3 clause_Qa (mkClause "" [])).
  - reflexivity.
  - left. reflexivity.
  - right. reflexivity.
Defined.

(** A blank clause line is parsed as the empty clause. *)
Lemma parse_blank_line (variables constants : gset string) (fresh : nat) :
  parse_clauses variables constants [EmptyString] fresh = Ok [mkClause "" []].
Proof. reflexivity. Qed.
